(** * Live feed of the listings dashboard: dedup buffer, transport
      fallback and view-count reconciliation

    Shallow embedding of the feed logic of the home page component
    ([HomePage], its feed [useEffect] and [handleViewClick]) in its two
    variants: the de-duplicating one and the older [src/app/page.tsx] one.

    Conventions of the embedding.
    - A JavaScript string is a [string]: one character stands for one code
      unit, a template literal is a concatenation ([+:+]).
    - A JSON number that the code treats as an id or a counter is an
      integer [Z]; [String(n)] is its decimal rendering ([pretty]), which
      is what JavaScript prints for integers of magnitude below 10^21.
    - A React state updater that returns the very array it was given is
      told apart from one that returns a newly built array ([UpdResult]):
      React skips the re-render in the first case.
    - An [async] function is cut at its [await]s: what runs before the
      promise settles and what runs after it are separate transitions.
    - The feed effect has an empty dependency list: it runs once, when the
      page mounts, and its cleanup runs once, when the page unmounts. React
      drops the state updates of an unmounted component. *)

From Stdlib Require Import Ascii.
From stdpp Require Import base numbers list strings gmap pretty.

Local Open Scope Z_scope.

(** ** JavaScript primitives used by the feed code *)

Module Js.

(** [String(n)] for an integral number. *)
Definition String_num (n : Z) : string := pretty n.

(** [s.slice(0, k)]: the first [k] code units, fewer when [s] is short. *)
Definition slice_prefix (k : nat) (s : string) : string := String.substring 0 k s.

(** [a.slice(-k)] on an array: its last [k] elements, all of them when
    the array is shorter. *)
Definition slice_last {A} (k : nat) (a : list A) : list A :=
  drop (length a - k) a.

(** Truthiness of an optional number, as [||] sees it: [undefined],
    [null] and [0] are falsy. *)
Definition truthy (n : option Z) : option Z :=
  match n with
  | Some v => if decide (v = 0) then None else Some v
  | None => None
  end.

(** Number of ["-"] code units of a string. *)
Fixpoint dashes (s : string) : nat :=
  match s with
  | EmptyString => 0%nat
  | String c r => ((if decide (c = "-"%char) then 1 else 0) + dashes r)%nat
  end.

End Js.

(** ** Data model *)

(** The element of the server's message list and the payload of a
    [TelegramMessage] push event: [{ id?, text, senderName, sentAt }]. *)
Module Raw.
Record t := mk {
  id : option Z;
  text : string;
  senderName : string;
  sentAt : string
}.

Global Instance eq_dec : EqDecision t.
Proof. solve_decision. Defined.
End Raw.

(** [type TelegramMsg]. *)
Module TelegramMsg.
Record t := mk {
  id : string;
  text : string;
  senderName : string;
  sentAt : string
}.

Global Instance eq_dec : EqDecision t.
Proof. solve_decision. Defined.

(** The payload of a message, its id left out. *)
Definition content (m : t) : string * string * string :=
  (text m, senderName m, sentAt m).
End TelegramMsg.

Abbreviation TelegramMsg := TelegramMsg.t.

(** The ids held by a buffer, in buffer order. *)
Definition ids (buf : list TelegramMsg) : list string := TelegramMsg.id <$> buf.

(** What a state updater hands back to React. *)
Inductive UpdResult :=
  | Same                            (* [return prev] *)
  | Fresh (a : list TelegramMsg).    (* a newly built array *)

Definition apply_upd (prev : list TelegramMsg) (r : UpdResult) : list TelegramMsg :=
  match r with
  | Same => prev
  | Fresh a => a
  end.

(** The capacity of the feed buffer. *)
Definition capacity : nat := 200.

(** ** The de-duplicating variant *)

Module Feed.

(** [`${m.sentAt}-${m.senderName}-${String(m.text).slice(0, 10)}`] *)
Definition composite (m : Raw.t) : string :=
  Raw.sentAt m +:+ "-" +:+ Raw.senderName m +:+ "-" +:+
  Js.slice_prefix 10 (Raw.text m).

(** [String(m.id || `...`)], the id a poll tick gives a fetched message. *)
Definition poll_id (m : Raw.t) : string :=
  match Js.truthy (Raw.id m) with
  | Some n => Js.String_num n
  | None => composite m
  end.

Definition poll_msg (m : Raw.t) : TelegramMsg :=
  TelegramMsg.mk (poll_id m) (Raw.text m) (Raw.senderName m) (Raw.sentAt m).

(** The fetched messages not yet in the buffer: the [filter] against
    [existingIds] followed by the [map]. ([fetched] is the source's
    [list].) *)
Definition newMsgs (prev : list TelegramMsg) (fetched : list Raw.t) : list TelegramMsg :=
  let existingIds : gset string := list_to_set (ids prev) in
  poll_msg <$> filter (λ m, poll_id m ∉ existingIds) fetched.

(** [updated.length > 200 ? updated.slice(-200) : updated] *)
Definition trim (updated : list TelegramMsg) : list TelegramMsg :=
  if decide (capacity < length updated)%nat
  then Js.slice_last capacity updated
  else updated.

(** The updater of the poll tick. *)
Definition poll_update (fetched : list Raw.t) (prev : list TelegramMsg) : UpdResult :=
  let new := newMsgs prev fetched in
  if decide (length new = 0%nat) then Same
  else Fresh (trim (prev ++ new)).

(** [String(p.id ?? `${Date.now()}-${Math.random()}`)]: [now] is the
    clock reading and [rnd] the printed random number. *)
Definition push_id (p : Raw.t) (now : Z) (rnd : string) : string :=
  match Raw.id p with
  | Some n => Js.String_num n
  | None => Js.String_num now +:+ "-" +:+ rnd
  end.

Definition push_msg (p : Raw.t) (now : Z) (rnd : string) : TelegramMsg :=
  TelegramMsg.mk (push_id p now rnd) (Raw.text p) (Raw.senderName p) (Raw.sentAt p).

(** The updater of [onTelegramMessage]. *)
Definition push_update (newMsg : TelegramMsg) (prev : list TelegramMsg) : UpdResult :=
  if existsb (λ m, bool_decide (TelegramMsg.id m = TelegramMsg.id newMsg)) prev
  then Same
  else Fresh (trim (prev ++ [newMsg])).

End Feed.

(** ** The [src/app/page.tsx] variant *)

Module Page.

(** [`${idx}-${m.sentAt}-${m.senderName}-${m.text}`] *)
Definition indexed_id (idx : nat) (m : Raw.t) : string :=
  Js.String_num (Z.of_nat idx) +:+ "-" +:+ Raw.sentAt m +:+ "-" +:+
  Raw.senderName m +:+ "-" +:+ Raw.text m.

Definition mapped (fetched : list Raw.t) : list TelegramMsg :=
  imap (λ idx m,
    TelegramMsg.mk (indexed_id idx m) (Raw.text m) (Raw.senderName m) (Raw.sentAt m))
    fetched.

(** The updater of the poll tick: the buffer is rebuilt from the fetched
    list, whatever it held. *)
Definition poll_update (fetched : list Raw.t) (prev : list TelegramMsg) : UpdResult :=
  Fresh (Js.slice_last capacity (mapped fetched)).

(** The id of a pushed message: always clock and random number. *)
Definition push_msg (p : Raw.t) (now : Z) (rnd : string) : TelegramMsg :=
  TelegramMsg.mk (Js.String_num now +:+ "-" +:+ rnd)
    (Raw.text p) (Raw.senderName p) (Raw.sentAt p).

Definition push_update (newMsg : TelegramMsg) (prev : list TelegramMsg) : UpdResult :=
  let updated := prev ++ [newMsg] in
  Fresh (if decide (capacity < length updated)%nat
         then Js.slice_last capacity updated else updated).

End Page.

(** ** Append operations on the feed buffer *)

(** One append operation: a poll tick whose fetch returned [fetched], or a
    push event with payload [p], received at clock reading [now] with
    [rnd] drawn. *)
Inductive Append :=
  | Poll (fetched : list Raw.t)
  | Push (p : Raw.t) (now : Z) (rnd : string).

(** The candidates an operation offers to the buffer, in the given order. *)
Definition candidates (a : Append) : list TelegramMsg :=
  match a with
  | Poll fetched => Feed.poll_msg <$> fetched
  | Push p now rnd => [Feed.push_msg p now rnd]
  end.

(** The subset of its candidates an operation actually appends: the
    [newMsgs] of a poll tick, the pushed message unless the updater gave
    the buffer back. *)
Definition appended (buf : list TelegramMsg) (a : Append) : list TelegramMsg :=
  match a with
  | Poll fetched => Feed.newMsgs buf fetched
  | Push p now rnd =>
      match Feed.push_update (Feed.push_msg p now rnd) buf with
      | Same => []
      | Fresh _ => [Feed.push_msg p now rnd]
      end
  end.

Definition updater (a : Append) : list TelegramMsg → UpdResult :=
  match a with
  | Poll fetched => Feed.poll_update fetched
  | Push p now rnd => Feed.push_update (Feed.push_msg p now rnd)
  end.

Definition append (buf : list TelegramMsg) (a : Append) : list TelegramMsg :=
  apply_upd buf (updater a buf).

(** The buffer after a sequence of operations, from the empty initial
    state of [useState<TelegramMsg[]>([])]. *)
Definition run_appends (ops : list Append) : list TelegramMsg :=
  foldl append [] ops.

(** All candidates of a sequence of operations, in arrival order. *)
Definition arrivals (ops : list Append) : list TelegramMsg :=
  ops ≫= candidates.

(** The words of the specification: scanning ids in arrival order, an id
    already kept is dropped, any other is put at the end. *)
Definition spec_see (seen : list string) (k : string) : list string :=
  if decide (k ∈ seen) then seen else seen ++ [k].

Definition spec_first_seen (ks : list string) : list string :=
  foldl spec_see [] ks.

(** The specification's reading of the buffer contents: every id that
    arrived is there exactly once, in first-seen order. *)
Definition unique_first_seen (ops : list Append) : Prop :=
  ids (run_appends ops) = spec_first_seen (ids (arrivals ops)).

(** An operation offers no id twice. A push always qualifies; a poll tick
    does when the ids of the fetched list are pairwise distinct. *)
Definition no_repeat (a : Append) : Prop := NoDup (ids (candidates a)).

Global Instance no_repeat_dec a : Decision (no_repeat a).
Proof. unfold no_repeat. apply _. Defined.

(** Sample payloads. *)
Definition m7 : Raw.t := Raw.mk (Some 7) "hello world, long text" "ali" "10:00".
Definition m8 : Raw.t := Raw.mk (Some 8) "hello world, long text" "ali" "10:00".
Definition m_anon : Raw.t := Raw.mk None "hello world, long text" "ali" "10:00".

(** [n] pushed messages with the explicit ids [1..n]. *)
Definition burst (n : nat) : list Append :=
  (λ i, Push (Raw.mk (Some (Z.of_nat i)) "price?" "ali" "10:00") 0 "0.5") <$> seq 1 n.

(** A fetched list of [n] messages with the explicit ids [1..n]. *)
Definition fetch_of (n : nat) : list Raw.t :=
  (λ i, Raw.mk (Some (Z.of_nat i)) "price?" "ali" "10:00") <$> seq 1 n.

(** ** The feed effect as a transition system *)

Module Effect.

(** Where the [async] block of the effect stands: [await startSignalR()]
    pending, connected and awaiting [GetOnlineCount] ([unsub] still
    [null]), connected with [unsub] set, or in the [catch] branch. *)
Inductive Conn := Connecting | Invoking | Ready | Failed.

Global Instance Conn_eq_dec : EqDecision Conn.
Proof. solve_decision. Defined.

Record State := mk {
  telegramMsgs : list TelegramMsg;   (* the React state *)
  renders : nat;                     (* re-renders caused by the feed *)
  pollTimer : option positive;       (* the [pollTimer] variable *)
  intervals : gset positive;         (* intervals alive in the runtime *)
  nextInterval : positive;           (* next handle of [setInterval] *)
  inflight : nat;                    (* pending [api.get] of poll ticks *)
  conn : Conn;
  listening : bool;                  (* [onTelegramMessage] attached *)
  console : list string;
  mounted : bool                     (* the page is mounted *)
}.

Definition init : State :=
  mk [] 0 None ∅ 1%positive 0 Connecting false [] true.

Definition log (line : string) (s : State) : State :=
  mk (telegramMsgs s) (renders s) (pollTimer s) (intervals s) (nextInterval s)
     (inflight s) (conn s) (listening s) (console s ++ [line]) (mounted s).

Definition set_conn (c : Conn) (s : State) : State :=
  mk (telegramMsgs s) (renders s) (pollTimer s) (intervals s) (nextInterval s)
     (inflight s) c (listening s) (console s) (mounted s).

Definition set_listening (b : bool) (s : State) : State :=
  mk (telegramMsgs s) (renders s) (pollTimer s) (intervals s) (nextInterval s)
     (inflight s) (conn s) b (console s) (mounted s).

Definition set_inflight (n : nat) (s : State) : State :=
  mk (telegramMsgs s) (renders s) (pollTimer s) (intervals s) (nextInterval s)
     n (conn s) (listening s) (console s) (mounted s).

Definition set_mounted (b : bool) (s : State) : State :=
  mk (telegramMsgs s) (renders s) (pollTimer s) (intervals s) (nextInterval s)
     (inflight s) (conn s) (listening s) (console s) b.

(** [setTelegramMsgs(updater)]: React keeps the state and skips the
    render when the updater returns the array it was given; once the page
    is unmounted it drops the update altogether. *)
Definition setTelegramMsgs (upd : list TelegramMsg → UpdResult) (s : State) : State :=
  if mounted s then
    match upd (telegramMsgs s) with
    | Same => s
    | Fresh a =>
        mk a (S (renders s)) (pollTimer s) (intervals s) (nextInterval s)
           (inflight s) (conn s) (listening s) (console s) (mounted s)
    end
  else s.

(** A timer handle is a positive integer, hence truthy. *)
Definition startTelegramPolling (s : State) : State :=
  match pollTimer s with
  | Some _ => s
  | None =>
      let t := nextInterval s in
      log "Telegram polling started"
        (mk (telegramMsgs s) (renders s) (Some t) ({[t]} ∪ intervals s)
            (Pos.succ t) (inflight s) (conn s) (listening s) (console s)
            (mounted s))
  end.

Definition stopTelegramPolling (s : State) : State :=
  let live := match pollTimer s with
              | Some t => intervals s ∖ {[t]}
              | None => intervals s
              end in
  log "Telegram polling stopped"
    (mk (telegramMsgs s) (renders s) None live (nextInterval s)
        (inflight s) (conn s) (listening s) (console s) (mounted s)).

Inductive Event :=
  | EvSignalROk                      (* [startSignalR()] resolves *)
  | EvInvokeSettled                  (* [conn.invoke(...)] settles *)
  | EvSignalRErr                     (* [startSignalR()] rejects *)
  | EvClose                          (* the connection reports closure *)
  | EvTick (t : positive)            (* interval [t] fires *)
  | EvFetchOk (data : option (list Raw.t))   (* a poll fetch resolves *)
  | EvFetchErr                       (* a poll fetch rejects *)
  | EvPush (p : Raw.t) (now : Z) (rnd : string)
  | EvCleanup.                       (* the unmount: the effect's cleanup *)

Global Instance Event_eq_dec : EqDecision Event.
Proof. solve_decision. Defined.

(** One turn of the event loop. An event that cannot occur in a state
    (a promise settling twice, a cleared interval firing, a detached
    listener being called) leaves it untouched. *)
Definition step (s : State) (e : Event) : State :=
  match e with
  | EvSignalROk =>
      if decide (conn s = Connecting) then
        set_conn Invoking
          (set_listening true
            (stopTelegramPolling (log "SignalR connected, stop polling" s)))
      else s
  | EvInvokeSettled =>
      if decide (conn s = Invoking) then set_conn Ready s else s
  | EvSignalRErr =>
      if decide (conn s = Connecting) then
        set_conn Failed
          (startTelegramPolling (log "SignalR failed, enabling polling..." s))
      else s
  | EvClose =>
      if decide (conn s = Invoking ∨ conn s = Ready) then
        startTelegramPolling (log "SignalR closed, start polling" s)
      else s
  | EvTick t =>
      if decide (t ∈ intervals s) then set_inflight (S (inflight s)) s else s
  | EvFetchOk data =>
      match inflight s with
      | O => s
      | S n => setTelegramMsgs (Feed.poll_update (default [] data)) (set_inflight n s)
      end
  | EvFetchErr =>
      match inflight s with
      | O => s
      | S n => log "Polling error:" (set_inflight n s)
      end
  | EvPush p now rnd =>
      if listening s
      then setTelegramMsgs (Feed.push_update (Feed.push_msg p now rnd)) s
      else s
  | EvCleanup =>
      set_mounted false
        (stopTelegramPolling
          (if decide (conn s = Ready) then set_listening false s else s))
  end.

Definition run (evs : list Event) : State := foldl step init evs.

(** Polling is on: the variable holds the handle of a live interval. *)
Definition polling (s : State) : Prop :=
  ∃ t, pollTimer s = Some t ∧ t ∈ intervals s.

End Effect.

(** ** View clicks *)

(** [type Ad], cut down to what [handleViewClick] reads or writes; the
    display fields are carried along by the object spread like [title]. *)
Module Ad.
Record t := mk {
  id : Z;
  userId : Z;
  title : string;
  viewCount : Z
}.

Definition with_viewCount (n : Z) (x : t) : t :=
  mk (id x) (userId x) (title x) n.
End Ad.

Module Views.

Record State := mk {
  ads : list Ad.t;
  flashCounts : gmap Z nat;
  dispatched : list (Z * Z);     (* [carads_view_updated] events sent *)
  route : option (Z * Z)         (* user and ad of the last navigation *)
}.

(** How [api.post] settles: it rejects, or resolves with a response whose
    [data] and [data.viewCount] may each be missing. *)
Inductive PostResult :=
  | PostErr
  | PostOk (data : option (option Z)).

(** [prev[ad.id] ?? 0] *)
Definition flashCount (s : State) (adId : Z) : nat :=
  default 0%nat (flashCounts s !! adId).

(** Up to the [await] of the POST: [setFlashCounts]. *)
Definition click (ad : Ad.t) (s : State) : State :=
  mk (ads s)
     (<[Ad.id ad := (flashCount s (Ad.id ad) + 1)%nat]> (flashCounts s))
     (dispatched s) (route s).

(** [res.data?.viewCount ?? Number(ad.viewCount) + 1] *)
Definition newCount (ad : Ad.t) (data : option (option Z)) : Z :=
  default (Ad.viewCount ad + 1) (mjoin data).

(** The rest of the [try] block once the POST has settled; the [catch]
    is empty. *)
Definition settle (ad : Ad.t) (r : PostResult) (s : State) : State :=
  match r with
  | PostErr => s
  | PostOk data =>
      let n := newCount ad data in
      mk ((λ x, if decide (Ad.id x = Ad.id ad) then Ad.with_viewCount n x else x)
            <$> ads s)
         (flashCounts s)
         (dispatched s ++ [(Ad.id ad, n)])
         (route s)
  end.

(** After the 700 ms pause: [router.push]. *)
Definition navigate (ad : Ad.t) (s : State) : State :=
  mk (ads s) (flashCounts s) (dispatched s) (Some (Ad.userId ad, Ad.id ad)).

Definition handleViewClick (ad : Ad.t) (r : PostResult) (s : State) : State :=
  navigate ad (settle ad r (click ad s)).

(** The view counts the page holds for an entity. *)
Definition viewCounts (s : State) (adId : Z) : list Z :=
  Ad.viewCount <$> filter (λ x, Ad.id x = adId) (ads s).

End Views.

(** ** The scenario of the stop *)


(** ** The specification's readings that the code does not bear out *)

(** The two variants of the poll tick compute the same buffer. *)
Definition same_poll_result : Prop :=
  ∀ (prev : list TelegramMsg) (fetched : list Raw.t),
    apply_upd prev (Page.poll_update fetched prev) =
    apply_upd prev (Feed.poll_update fetched prev).

(** A click raises the view count of the entity at once. *)
Definition optimistic_view_count : Prop :=
  ∀ (s : Views.State) (ad : Ad.t),
    ad ∈ Views.ads s →
    Views.viewCounts (Views.click ad s) (Ad.id ad) =
    (λ n, n + 1) <$> Views.viewCounts s (Ad.id ad).



(** The two ways the push transport gives up: the connection attempt
    fails while it is pending, or an established connection reports its
    closure. *)
Definition push_lost (s : Effect.State) (e : Effect.Event) : Prop :=
  (e = Effect.EvSignalRErr ∧ Effect.conn s = Effect.Connecting) ∨
  (e = Effect.EvClose ∧ (Effect.conn s = Effect.Invoking ∨ Effect.conn s = Effect.Ready)).

(** The handle in [pollTimer] is the one live interval, if any. *)
Definition timer_inv (s : Effect.State) : Prop :=
  Effect.intervals s =
  match Effect.pollTimer s with
  | Some t => {[t]}
  | None => ∅
  end.

(** Sample listing and page state. *)
Definition pride : Ad.t := Ad.mk 3 11 "Pride 131" 5.
Definition page0 : Views.State := Views.mk [pride] ∅ [] None.

(** ** The history tab *)

Module SitePanel.

(** The [mapped] list of the history loader: every fetched message, under
    [String(m.id || `...`)], neither filtered nor trimmed. *)
Definition history_id (m : Raw.t) : string :=
  match Js.truthy (Raw.id m) with
  | Some n => Js.String_num n
  | None =>
      Raw.sentAt m +:+ "-" +:+ Raw.senderName m +:+ "-" +:+
      Js.slice_prefix 10 (Raw.text m)
  end.

Definition mapped (fetched : list Raw.t) : list TelegramMsg :=
  (λ m, TelegramMsg.mk (history_id m) (Raw.text m) (Raw.senderName m) (Raw.sentAt m))
    <$> fetched.

(** How the history request settles: [setHistoryMsgs(mapped)] on a
    response ([res.data ?? []]), [setHistoryMsgs([])] in the [catch]. *)
Definition historyLoaded (r : option (option (list Raw.t))) : list TelegramMsg :=
  match r with
  | Some data => mapped (default [] data)
  | None => []
  end.

End SitePanel.

(** ** Row selection *)

Module Selection.

(** [selectedAd?.id === ad.id], the [selected] flag of a row. *)
Definition selected (selectedAd : option Ad.t) (adId : Z) : bool :=
  match selectedAd with
  | Some s => bool_decide (Ad.id s = adId)
  | None => false
  end.

(** [setSelectedAd((prev) => prev?.id === a.id ? null : a)] *)
Definition onSelect (a : Ad.t) (prev : option Ad.t) : option Ad.t :=
  match prev with
  | Some s => if decide (Ad.id s = Ad.id a) then None else Some a
  | None => Some a
  end.

(** The effect that follows [ads]: the first ad with the id of the
    selection replaces it; a selection that is no longer listed stays. *)
Definition syncSelected (ads : list Ad.t) (selectedAd : option Ad.t) : option Ad.t :=
  match selectedAd with
  | Some s =>
      match List.find (λ a, bool_decide (Ad.id a = Ad.id s)) ads with
      | Some updated => Some updated
      | None => selectedAd
      end
  | None => None
  end.

End Selection.

(** ** The flash of a row *)

Module AdRow.

Inductive Color := Green | Blue.

Record State := mk {
  isFlashing : bool;
  flashColor : Color;
  prevFlash : nat;          (* [prevFlash.current] *)
  timeouts : nat            (* pending [setIsFlashing(false)] timeouts *)
}.

(** [useState(false)], [useState("green")], [useRef(0)]. *)
Definition init : State := mk false Green 0 0.

(** The effect on [flashCount]. *)
Definition flashEffect (flashCount : nat) (st : State) : State :=
  if decide (0 < flashCount ∧ flashCount ≠ prevFlash st)%nat
  then mk true Blue flashCount (S (timeouts st))
  else st.

(** One of the 2000 ms timeouts fires. *)
Definition timeoutFires (st : State) : State :=
  match timeouts st with
  | O => st
  | S n => mk false (flashColor st) (prevFlash st) n
  end.

End AdRow.

(** ** Handler traces of the page *)

(** The transitions of [handleViewClick], as they interleave over several
    clicks. *)
Inductive ViewStep :=
  | VClick (ad : Ad.t)
  | VSettle (ad : Ad.t) (r : Views.PostResult)
  | VNavigate (ad : Ad.t).

Definition view_step (s : Views.State) (e : ViewStep) : Views.State :=
  match e with
  | VClick ad => Views.click ad s
  | VSettle ad r => Views.settle ad r s
  | VNavigate ad => Views.navigate ad s
  end.

Definition view_run (s : Views.State) (tr : list ViewStep) : Views.State :=
  foldl view_step s tr.

(** The clicks of a trace on the entity [adId]. *)
Definition is_click_on (adId : Z) (e : ViewStep) : bool :=
  match e with
  | VClick ad => bool_decide (Ad.id ad = adId)
  | _ => false
  end.

Definition clicks_on (adId : Z) (tr : list ViewStep) : nat :=
  length (List.filter (is_click_on adId) tr).

(** ** User records of the posters *)

Module UserInfo.
Record t := mk {
  id : Z;
  username : string;
  firstName : string;
  lastName : string
}.
End UserInfo.

Module Users.

Record State := mk {
  users : gmap Z UserInfo.t;
  fetchedUserIds : gset Z;       (* [fetchedUserIds.current] *)
  pending : list Z               (* [api.get] requests in flight *)
}.

Definition init : State := mk ∅ ∅ [].

Definition fetchUser (userId : Z) (s : State) : State :=
  if decide (userId ∈ fetchedUserIds s) then s
  else mk (users s) ({[userId]} ∪ fetchedUserIds s) (pending s ++ [userId]).

(** One request for [userId] leaves the requests in flight. *)
Fixpoint settled (userId : Z) (reqs : list Z) : list Z :=
  match reqs with
  | [] => []
  | u :: rest => if decide (u = userId) then rest else u :: settled userId rest
  end.

(** How a request settles: the response carries the record, or the
    request fails. *)
Inductive Response :=
  | Resolved (data : UserInfo.t)
  | Rejected.

(** The [then] and the [catch] of the request for [userId]. *)
Definition settle (userId : Z) (r : Response) (s : State) : State :=
  if decide (userId ∈ pending s) then
    match r with
    | Resolved data =>
        mk (<[userId :=
               UserInfo.mk (UserInfo.id data) (UserInfo.username data)
                 (UserInfo.firstName data) (UserInfo.lastName data)]> (users s))
           (fetchedUserIds s) (settled userId (pending s))
    | Rejected =>
        mk (users s) (fetchedUserIds s ∖ {[userId]}) (settled userId (pending s))
    end
  else s.

(** [[...new Set(ks)]]: the distinct elements in order of first
    occurrence. *)
Definition set_order (ks : list Z) : list Z :=
  foldl (λ seen k, if decide (k ∈ seen) then seen else seen ++ [k]) [] ks.

(** The [then] of the ads request, as far as the users go:
    [[...new Set(list.map((a) => a.userId))].forEach(fetchUser)]. *)
Definition adsLoaded (data : option (list Ad.t)) (s : State) : State :=
  foldl (λ st u, fetchUser u st) s (set_order (Ad.userId <$> default [] data)).

Inductive Event :=
  | EvFetchUser (userId : Z)
  | EvSettle (userId : Z) (r : Response)
  | EvAdsLoaded (data : option (list Ad.t)).

Definition step (s : State) (e : Event) : State :=
  match e with
  | EvFetchUser u => fetchUser u s
  | EvSettle u r => settle u r s
  | EvAdsLoaded data => adsLoaded data s
  end.

Definition run (evs : list Event) : State := foldl step init evs.

(** What every run keeps: a user is requested at most once at a time, only
    while marked as fetched, and never again once loaded. *)
Definition inv (s : State) : Prop :=
  NoDup (pending s) ∧
  (∀ u, u ∈ pending s → u ∈ fetchedUserIds s) ∧
  (∀ u, u ∈ dom (users s) → u ∈ fetchedUserIds s) ∧
  (∀ u, u ∈ pending s → u ∉ dom (users s)).

End Users.

(** ** Labels *)

Module Label.

(** [number | string] *)
Inductive NumOrStr :=
  | Num (n : Z)
  | Str (s : string).

(** [String(t)] *)
Definition to_string (t : NumOrStr) : string :=
  match t with
  | Num n => Js.String_num n
  | Str s => s
  end.

(** [toLowerCase] on one code unit below 256: the letters A-Z and the
    capitals of the Latin-1 block. *)
Definition lower (c : ascii) : ascii :=
  let n := N_of_ascii c in
  if decide ((65 ≤ n ≤ 90)%N ∨ ((192 ≤ n ≤ 222)%N ∧ n ≠ 215%N))
  then ascii_of_N (n + 32)
  else c.

(** What [\s] matches below 256: tab, line feed, vertical tab, form feed,
    carriage return, space and no-break space. *)
Definition is_space (c : ascii) : bool :=
  bool_decide (N_of_ascii c ∈ [9; 10; 11; 12; 13; 32; 160]%N).

Fixpoint toLowerCase (s : string) : string :=
  match s with
  | EmptyString => EmptyString
  | String c r => String (lower c) (toLowerCase r)
  end.

(** [replace(/\s/g, "")] *)
Fixpoint strip_spaces (s : string) : string :=
  match s with
  | EmptyString => EmptyString
  | String c r => if is_space c then strip_spaces r else String c (strip_spaces r)
  end.

(** [String(t).toLowerCase().replace(/\s/g, "")] *)
Definition key_of (t : NumOrStr) : string :=
  strip_spaces (toLowerCase (to_string t)).

(** What a property read on a plain object literal gives: the text of an
    own property, or something inherited from [Object.prototype]. *)
Inductive Looked :=
  | Text (s : string)
  | Inherited (name : string).

Definition prototype_names : list string :=
  ["constructor"; "__defineGetter__"; "__defineSetter__"; "hasOwnProperty";
   "__lookupGetter__"; "__lookupSetter__"; "isPrototypeOf";
   "propertyIsEnumerable"; "toString"; "valueOf"; "__proto__";
   "toLocaleString"].

(** [table[k]]; [None] stands for [undefined]. *)
Definition get (table : gmap string string) (k : string) : option Looked :=
  match table !! k with
  | Some v => Some (Text v)
  | None => if decide (k ∈ prototype_names) then Some (Inherited k) else None
  end.

(** The display texts are the UTF-8 bytes of the source literals; they are
    only compared. *)
Definition TYPE_NUM : gmap string string :=
  list_to_map [("1", "فروش کارکرده"); ("2", "فروش همکاری");
               ("3", "درخواست خرید"); ("4", "فروش صفر")].

Definition TYPE_STR : gmap string string :=
  list_to_map [("usedsale", "فروش کارکرده"); ("coopsale", "فروش همکاری");
               ("buyrequest", "درخواست خرید"); ("zerosale", "فروش صفر")].

(** [a ?? b] on a looked-up value. *)
Definition orElse (a : option Looked) (b : Looked) : Looked := default b a.

Definition typeLabel (t : NumOrStr) : Looked :=
  let s := key_of t in
  match get TYPE_NUM s with
  | Some v => v
  | None => orElse (get TYPE_STR s) (Text "نامشخص")
  end.

Definition GEAR_NUM : gmap string string :=
  list_to_map [("0", "—"); ("1", "اتومات"); ("2", "دنده‌ای")].

Definition GEAR_STR : gmap string string :=
  list_to_map [("none", "—"); ("automatic", "اتومات"); ("manual", "دنده‌ای")].

Definition gearboxLabel (g : NumOrStr) : Looked :=
  let s := key_of g in
  match get GEAR_NUM s with
  | Some v => v
  | None => orElse (get GEAR_STR s) (Text "—")
  end.

(** Every code unit is a decimal digit or the minus sign. *)
Fixpoint decimal (s : string) : bool :=
  match s with
  | EmptyString => true
  | String c r =>
      (bool_decide ((48 ≤ N_of_ascii c ≤ 57)%N) || bool_decide (c = "-"%char)) && decimal r
  end.

End Label.

(** ** What an event of the effect does to the buffer *)

(** The append operation an event performs in a state, if any: a fetch
    result while a fetch is pending, a push event while the listener is
    attached, either while the page is mounted. *)
Definition delivers (s : Effect.State) (e : Effect.Event) : option Append :=
  if Effect.mounted s then
    match e with
    | Effect.EvFetchOk data =>
        match Effect.inflight s with
        | O => None
        | S _ => Some (Poll (default [] data))
        end
    | Effect.EvPush p now rnd =>
        if Effect.listening s then Some (Push p now rnd) else None
    | _ => None
    end
  else None.

(** The fetch results among the events carry no id twice. *)
Definition fetch_no_repeat (e : Effect.Event) : Prop :=
  match e with
  | Effect.EvFetchOk data => no_repeat (Poll (default [] data))
  | _ => True
  end.

Global Instance fetch_no_repeat_dec e : Decision (fetch_no_repeat e).
Proof. destruct e; simpl; apply _. Defined.

(** The feed has not moved: nothing buffered, rendered, scheduled or
    attached. *)
Definition idle (s : Effect.State) : Prop :=
  Effect.telegramMsgs s = [] ∧ Effect.renders s = 0%nat ∧
  Effect.pollTimer s = None ∧ Effect.intervals s = ∅ ∧
  Effect.inflight s = 0%nat ∧ Effect.listening s = false.

(** The pushes of the [page.tsx] variant, one after the other. *)
Definition page_pushes (prev : list TelegramMsg) (msgs : list TelegramMsg) :
    list TelegramMsg :=
  foldl (λ buf m, apply_upd buf (Page.push_update m buf)) prev msgs.

(** * Properties *)

(** ** Array slices *)

Section slices.
Context {A : Type}.
Implicit Types a b : list A.

Lemma slice_last_short k a : (length a ≤ k)%nat → Js.slice_last k a = a.
Proof.
  intros Hle. unfold Js.slice_last.
  replace (length a - k)%nat with 0%nat by lia. apply drop_0.
Qed.

Lemma slice_last_length k a : length (Js.slice_last k a) = (length a `min` k)%nat.
Proof. unfold Js.slice_last. rewrite length_drop. lia. Qed.

Lemma slice_last_app k a b :
  Js.slice_last k (Js.slice_last k a ++ b) = Js.slice_last k (a ++ b).
Proof.
  destruct (decide (length a ≤ k)%nat) as [Hle|Hgt].
  - by rewrite (slice_last_short k a).
  - unfold Js.slice_last at 1 3.
    rewrite !length_app, slice_last_length.
    unfold Js.slice_last. rewrite !drop_app, drop_drop, length_drop.
    f_equal; f_equal; lia.
Qed.

Lemma slice_last_subseteq k a : Js.slice_last k a ⊆ a.
Proof. apply subseteq_drop. Qed.
End slices.

(** ** The updaters, read as one append *)

Lemma trim_slice (updated : list TelegramMsg) :
  Feed.trim updated = Js.slice_last capacity updated.
Proof.
  unfold Feed.trim. case_decide; [done|].
  symmetry. apply slice_last_short. lia.
Qed.

Lemma trim_length (updated : list TelegramMsg) :
  (length (Feed.trim updated) ≤ capacity)%nat.
Proof. rewrite trim_slice, slice_last_length. lia. Qed.

Lemma ids_trim (updated : list TelegramMsg) :
  ids (Feed.trim updated) = Js.slice_last capacity (ids updated).
Proof.
  rewrite trim_slice. unfold ids, Js.slice_last.
  by rewrite fmap_drop, length_fmap.
Qed.

Lemma elem_of_existingIds (prev : list TelegramMsg) (k : string) :
  k ∈ (list_to_set (ids prev) : gset string) ↔ k ∈ ids prev.
Proof. apply elem_of_list_to_set. Qed.

(** The poll tick keeps exactly the fetched messages whose id the buffer
    lacks. *)
Lemma newMsgs_filter (prev : list TelegramMsg) (fetched : list Raw.t) :
  Feed.newMsgs prev fetched =
  filter (λ c, TelegramMsg.id c ∉ ids prev) (Feed.poll_msg <$> fetched).
Proof.
  unfold Feed.newMsgs. induction fetched as [|m fetched IH]; [done|].
  rewrite fmap_cons, !filter_cons. simpl.
  destruct (decide (Feed.poll_id m ∉ list_to_set (ids prev))) as [Hn|Hn];
    destruct (decide (Feed.poll_id m ∉ ids prev)) as [Hm|Hm];
    rewrite elem_of_existingIds in Hn; try done.
  by rewrite fmap_cons, IH.
Qed.

Lemma existsb_id (k : string) (prev : list TelegramMsg) :
  existsb (λ m, bool_decide (TelegramMsg.id m = k)) prev = true ↔ k ∈ ids prev.
Proof.
  rewrite existsb_exists. unfold ids. rewrite list_elem_of_fmap. split.
  - intros (m & Hin & Heq). apply bool_decide_eq_true in Heq.
    exists m. split; [done|]. by apply list_elem_of_In.
  - intros (m & -> & Hin). exists m. split; [by apply list_elem_of_In|].
    by apply bool_decide_eq_true.
Qed.

Lemma appended_filter (buf : list TelegramMsg) (a : Append) :
  appended buf a = filter (λ c, TelegramMsg.id c ∉ ids buf) (candidates a).
Proof.
  destruct a as [fetched|p now rnd]; simpl.
  - apply newMsgs_filter.
  - unfold Feed.push_update. rewrite filter_cons, filter_nil.
    destruct (existsb _ buf) eqn:He.
    + apply existsb_id in He. by rewrite decide_False by auto.
    + rewrite decide_True; [done|].
      intros Hin. apply existsb_id in Hin. congruence.
Qed.

(** Either nothing is appended and the updater gives the buffer back, or
    the appended subset goes to the end and the result is trimmed. *)
Lemma updater_appended (buf : list TelegramMsg) (a : Append) :
  updater a buf =
  if decide (appended buf a = []) then Same
  else Fresh (Feed.trim (buf ++ appended buf a)).
Proof.
  destruct a as [fetched|p now rnd]; simpl.
  - unfold Feed.poll_update.
    destruct (Feed.newMsgs buf fetched) as [|c new]; [done|].
    rewrite decide_False by done. by rewrite decide_False by done.
  - unfold Feed.push_update. by destruct (existsb _ buf).
Qed.

Lemma append_appended (buf : list TelegramMsg) (a : Append) :
  (length buf ≤ capacity)%nat →
  append buf a = Js.slice_last capacity (buf ++ appended buf a).
Proof.
  intros Hlen. unfold append. rewrite updater_appended.
  case_decide as He; simpl.
  - rewrite He, app_nil_r. symmetry. by apply slice_last_short.
  - apply trim_slice.
Qed.

Lemma append_length (buf : list TelegramMsg) (a : Append) :
  (length buf ≤ capacity)%nat → (length (append buf a) ≤ capacity)%nat.
Proof.
  intros Hlen. rewrite append_appended, slice_last_length by done. lia.
Qed.

Lemma run_appends_snoc (ops : list Append) (a : Append) :
  run_appends (ops ++ [a]) = append (run_appends ops) a.
Proof. unfold run_appends. by rewrite foldl_snoc. Qed.

Lemma arrivals_snoc (ops : list Append) (a : Append) :
  arrivals (ops ++ [a]) = arrivals ops ++ candidates a.
Proof. unfold arrivals. rewrite bind_app. simpl. by rewrite app_nil_r. Qed.

Lemma run_appends_length (ops : list Append) :
  (length (run_appends ops) ≤ capacity)%nat.
Proof.
  induction ops as [|a ops IH] using rev_ind.
  - simpl. unfold capacity. lia.
  - rewrite run_appends_snoc. by apply append_length.
Qed.

(** ** Filtering against the buffer *)

Lemma filter_all {A} (P : A → Prop) `{∀ x, Decision (P x)} (l : list A) :
  Forall P l → filter P l = l.
Proof.
  induction 1 as [|x l Hx _ IH]; [done|].
  by rewrite filter_cons_True, IH.
Qed.

Lemma filter_none {A} (P : A → Prop) `{∀ x, Decision (P x)} (l : list A) :
  Forall (λ x, ¬ P x) l → filter P l = [].
Proof.
  induction 1 as [|x l Hx _ IH]; [done|].
  by rewrite filter_cons_False.
Qed.

Lemma filter_agree {A} (P Q : A → Prop)
    `{!∀ x, Decision (P x), !∀ x, Decision (Q x)} (l : list A) :
  (∀ x, x ∈ l → P x ↔ Q x) → filter P l = filter Q l.
Proof.
  induction l as [|x l IH]; intros Hpq; [done|].
  rewrite !filter_cons, IH by (intros; apply Hpq; by right).
  apply decide_ext, Hpq. by left.
Qed.

Lemma ids_filter (Q : string → Prop)
    `{!∀ k, Decision (Q k), !∀ c, Decision (Q (TelegramMsg.id c))}
    (l : list TelegramMsg) :
  ids (filter (λ c, Q (TelegramMsg.id c)) l) = filter Q (ids l).
Proof.
  unfold ids. induction l as [|c l IH]; [done|].
  rewrite fmap_cons, !filter_cons.
  destruct (decide (Q (TelegramMsg.id c))) as [Hq|Hq].
  - rewrite decide_True by done. by rewrite fmap_cons, IH.
  - by rewrite decide_False by done.
Qed.

Lemma ids_appended (buf : list TelegramMsg) (a : Append) :
  ids (appended buf a) = filter (λ k, k ∉ ids buf) (ids (candidates a)).
Proof.
  rewrite appended_filter.
  apply (ids_filter (λ k, k ∉ ids buf)).
Qed.

(** ** Bounded length and FIFO eviction *)

(** When no id arrives twice, nothing is dropped as a duplicate and the
    buffer is the tail of the arrival sequence. *)
Lemma run_appends_distinct (ops : list Append) :
  NoDup (ids (arrivals ops)) →
  run_appends ops = Js.slice_last capacity (arrivals ops).
Proof.
  induction ops as [|a ops IH] using rev_ind; [done|].
  rewrite arrivals_snoc, run_appends_snoc. unfold ids at 1.
  rewrite fmap_app. fold (ids (arrivals ops)) (ids (candidates a)).
  intros (Hpre & Hdisj & _)%NoDup_app.
  rewrite append_appended by apply run_appends_length.
  assert (appended (run_appends ops) a = candidates a) as ->.
  { rewrite appended_filter. apply filter_all, Forall_forall.
    intros c Hc Hin. rewrite IH in Hin by done.
    apply (Hdisj (TelegramMsg.id c)).
    - unfold ids in Hin. apply list_elem_of_fmap in Hin as (c' & -> & Hc').
      apply list_elem_of_fmap_2. by apply slice_last_subseteq in Hc'.
    - by apply list_elem_of_fmap_2. }
  rewrite IH by done. apply slice_last_app.
Qed.

(** C2. After every append operation the buffer holds at most 200
    messages, and overflow evicts from the front: each operation leaves
    the last 200 of the old buffer followed by what it appends. Hence,
    when all the ids that arrive are distinct, the buffer is the last 200
    arrivals, and after 250 unique messages it is exactly the last 200 of
    them in insertion order. *)
Theorem buffer_bounded_fifo (ops : list Append) :
  (length (run_appends ops) ≤ 200)%nat ∧
  (∀ a : Append,
     run_appends (ops ++ [a]) =
     Js.slice_last 200 (run_appends ops ++ appended (run_appends ops) a)) ∧
  (NoDup (ids (arrivals ops)) →
     run_appends ops = Js.slice_last 200 (arrivals ops) ∧
     (length (arrivals ops) = 250%nat →
        run_appends ops = drop 50 (arrivals ops) ∧
        length (run_appends ops) = 200%nat)).
Proof.
  split; [apply run_appends_length|]. split.
  { intros a. rewrite run_appends_snoc.
    apply append_appended, run_appends_length. }
  intros Hnd. pose proof (run_appends_distinct ops Hnd) as Hrun.
  split; [done|]. intros Hlen. rewrite Hrun.
  unfold Js.slice_last, capacity. rewrite Hlen, length_drop, Hlen. done.
Qed.

Lemma buffer_bounded_fifo_witness :
  run_appends (burst 250) = drop 50 (arrivals (burst 250)) ∧
  length (run_appends (burst 250)) = 200%nat.
Proof.
  destruct (buffer_bounded_fifo (burst 250)) as (_ & _ & H).
  destruct H as [_ H].
  - apply (bool_decide_unpack _). vm_compute. reflexivity.
  - apply H. vm_compute. reflexivity.
Defined.

(** ** Uniqueness of ids and first-seen order *)

Lemma foldl_see_batch (seen ks : list string) :
  NoDup ks → foldl spec_see seen ks = seen ++ filter (λ k, k ∉ seen) ks.
Proof.
  intros Hnd. revert seen.
  induction Hnd as [|k ks Hk _ IH]; intros seen; simpl.
  - by rewrite app_nil_r.
  - rewrite IH, filter_cons. unfold spec_see. case_decide as Hin.
    + by rewrite decide_False by auto.
    + rewrite decide_True by done. rewrite <- app_assoc. simpl.
      do 2 f_equal. apply filter_agree. intros x Hx.
      rewrite elem_of_app, list_elem_of_singleton.
      split; [tauto|]. intros Hns [?| ->]; done.
Qed.

Lemma foldl_see_length (seen ks : list string) :
  (length seen ≤ length (foldl spec_see seen ks))%nat.
Proof.
  revert seen. induction ks as [|k ks IH]; intros seen; simpl; [done|].
  etrans; [|apply IH]. unfold spec_see. case_decide; [done|].
  rewrite length_app. lia.
Qed.

Lemma ids_append (buf : list TelegramMsg) (a : Append) :
  (length buf ≤ capacity)%nat →
  ids (append buf a) =
  Js.slice_last capacity (ids buf ++ filter (λ k, k ∉ ids buf) (ids (candidates a))).
Proof.
  intros Hlen. rewrite append_appended by done.
  rewrite <- ids_appended. unfold ids, Js.slice_last.
  by rewrite fmap_drop, fmap_app, !length_app, !length_fmap.
Qed.

Lemma append_NoDup (buf : list TelegramMsg) (a : Append) :
  (length buf ≤ capacity)%nat → no_repeat a →
  NoDup (ids buf) → NoDup (ids (append buf a)).
Proof.
  intros Hlen Ha Hbuf. rewrite ids_append by done.
  eapply sublist_NoDup; [|apply sublist_drop].
  apply NoDup_app. split; [done|]. split.
  - intros k Hk [Hn _]%list_elem_of_filter. done.
  - by apply NoDup_filter.
Qed.

Lemma run_appends_NoDup (ops : list Append) :
  Forall no_repeat ops → NoDup (ids (run_appends ops)).
Proof.
  induction ops as [|a ops IH] using rev_ind; intros Hops.
  - constructor.
  - apply Forall_app in Hops as [Hops Ha]. rewrite Forall_singleton in Ha.
    rewrite run_appends_snoc.
    apply append_NoDup; [apply run_appends_length|exact Ha|by apply IH].
Qed.

Lemma run_appends_first_seen (ops : list Append) :
  Forall no_repeat ops →
  (length (spec_first_seen (ids (arrivals ops))) ≤ capacity)%nat →
  unique_first_seen ops.
Proof.
  unfold unique_first_seen.
  induction ops as [|a ops IH] using rev_ind; intros Hops; [done|].
  apply Forall_app in Hops as [Hops Ha]. rewrite Forall_singleton in Ha.
  rewrite arrivals_snoc, run_appends_snoc. unfold ids at 1 3.
  rewrite fmap_app. fold (ids (arrivals ops)) (ids (candidates a)).
  unfold spec_first_seen. rewrite foldl_app.
  fold (spec_first_seen (ids (arrivals ops))).
  intros Hcap.
  pose proof (foldl_see_length (spec_first_seen (ids (arrivals ops)))
                (ids (candidates a))) as Hmono.
  rewrite ids_append by apply run_appends_length.
  rewrite IH by (done || lia).
  rewrite foldl_see_batch in Hcap |- * by done.
  by apply slice_last_short.
Qed.

(** C1, as the code has it. For every sequence of poll-tick and push
    appends in which no fetched list carries the same id twice, no id
    occurs twice in the buffer; and as long as the distinct ids that have
    arrived number at most 200, the ids of the buffer are exactly those
    ids, each once, in first-seen order. *)
Theorem unique_ids_first_seen (ops : list Append) :
  Forall no_repeat ops →
  NoDup (ids (run_appends ops)) ∧
  ((length (spec_first_seen (ids (arrivals ops))) ≤ 200)%nat →
     unique_first_seen ops).
Proof.
  intros Hops. split.
  - by apply run_appends_NoDup.
  - by apply run_appends_first_seen.
Qed.

(** The reading of the specification fails in two ways. A fetched list
    that carries one id twice puts it in the buffer twice, since the poll
    tick compares the candidates with the buffer only. And past the
    capacity an evicted id is gone, and is appended again, behind newer
    ones, by the next tick that fetches it. *)
Lemma first_seen_order_fails :
  ¬ unique_first_seen [Poll [m7; m7]] ∧
  ¬ unique_first_seen [Poll (fetch_of 201); Poll (fetch_of 201)].
Proof.
  unfold unique_first_seen. split.
  - vm_compute. discriminate.
  - intros H. apply (f_equal (λ l, l !! 0%nat)) in H.
    vm_compute in H. discriminate.
Qed.

Lemma unique_ids_first_seen_witness :
  NoDup (ids (run_appends [Poll [m7; m_anon]; Push m7 1 "0.25"; Poll [m8; m7]])) ∧
  unique_first_seen [Poll [m7; m_anon]; Push m7 1 "0.25"; Poll [m8; m7]].
Proof.
  pose proof (unique_ids_first_seen
                [Poll [m7; m_anon]; Push m7 1 "0.25"; Poll [m8; m7]]) as H.
  destruct H as [H1 H2].
  - apply (bool_decide_unpack _). vm_compute. reflexivity.
  - split; [exact H1|]. apply H2. vm_compute. lia.
Defined.

(** Past the capacity the first-seen order is lost: a poll tick that
    fetches 201 messages evicts the oldest, and the next tick, fetching
    the same list, appends it again behind the newer ones. *)
Example readmission_after_eviction :
  ids (run_appends [Poll (fetch_of 201); Poll (fetch_of 201)]) =
  (Js.String_num ∘ Z.of_nat <$> seq 3 199) ++ ["1"].
Proof. vm_compute. reflexivity. Qed.

(** ** Appends that bring nothing new *)

(** C9. An append whose candidates all carry ids the buffer already holds
    appends nothing: the appended subset is empty, the updater hands the
    buffer itself back, and [setTelegramMsgs] leaves the whole state,
    render count included, as it was. *)
Theorem all_duplicates_no_update (s : Effect.State) (a : Append) :
  Forall (λ c, TelegramMsg.id c ∈ ids (Effect.telegramMsgs s)) (candidates a) →
  appended (Effect.telegramMsgs s) a = [] ∧
  updater a (Effect.telegramMsgs s) = Same ∧
  append (Effect.telegramMsgs s) a = Effect.telegramMsgs s ∧
  Effect.setTelegramMsgs (updater a) s = s.
Proof.
  intros Hdup.
  assert (appended (Effect.telegramMsgs s) a = []) as Hnone.
  { rewrite appended_filter. apply filter_none.
    eapply Forall_impl; [exact Hdup|]. simpl. auto. }
  assert (updater a (Effect.telegramMsgs s) = Same) as Hsame.
  { rewrite updater_appended. by rewrite decide_True. }
  repeat split; [done|done| |].
  - unfold append. by rewrite Hsame.
  - unfold Effect.setTelegramMsgs. rewrite Hsame. by destruct (Effect.mounted s).
Qed.

Lemma all_duplicates_no_update_witness :
  let s := Effect.run [Effect.EvSignalRErr; Effect.EvTick 1;
                       Effect.EvFetchOk (Some [m7; m_anon])] in
  let a := Poll [m_anon; m7; m7] in
  appended (Effect.telegramMsgs s) a = [] ∧
  updater a (Effect.telegramMsgs s) = Same ∧
  append (Effect.telegramMsgs s) a = Effect.telegramMsgs s ∧
  Effect.setTelegramMsgs (updater a) s = s.
Proof.
  intros s a. apply (all_duplicates_no_update s a).
  apply (bool_decide_unpack _). vm_compute. reflexivity.
Defined.

(** ** Identity by id *)


Lemma pretty_N_char_no_dash (d : N) : pretty_N_char d ≠ "-"%char.
Proof. unfold pretty_N_char. repeat case_match; discriminate. Qed.

Lemma dashes_pretty_N_go (x : N) (s : string) :
  Js.dashes (pretty_N_go x s) = Js.dashes s.
Proof.
  revert s. induction (N.lt_wf_0 x) as [x _ IH]; intros s.
  destruct (decide (x = 0)%N) as [->|Hx]; [by rewrite pretty_N_go_0|].
  rewrite pretty_N_go_step by lia.
  rewrite IH by (apply N.div_lt; lia). simpl.
  by rewrite decide_False by apply pretty_N_char_no_dash.
Qed.

Lemma dashes_pretty_N (x : N) : Js.dashes (pretty x) = 0%nat.
Proof.
  unfold pretty, pretty_N. case_decide; [done|].
  by rewrite dashes_pretty_N_go.
Qed.






Lemma slice_last_suffix {A} (k : nat) (a b : list A) (x : A) :
  (length b ≤ k)%nat → x ∈ b → x ∈ Js.slice_last k (a ++ b).
Proof.
  intros Hk Hx. unfold Js.slice_last. rewrite length_app, drop_app.
  apply elem_of_app. right.
  replace (length a + length b - k - length a)%nat with 0%nat by lia.
  by rewrite drop_0.
Qed.

(** What an operation appends is in the buffer afterwards. *)
Lemma appended_kept (buf : list TelegramMsg) (a : Append) (c : TelegramMsg) :
  (length (appended buf a) ≤ capacity)%nat →
  c ∈ appended buf a → c ∈ append buf a.
Proof.
  intros Hlen Hc. unfold append. rewrite updater_appended.
  case_decide as He; simpl.
  - rewrite He in Hc. by apply elem_of_nil in Hc.
  - rewrite trim_slice. by apply slice_last_suffix.
Qed.

Lemma appended_length (buf : list TelegramMsg) (a : Append) :
  (length (appended buf a) ≤ length (candidates a))%nat.
Proof. rewrite appended_filter. apply length_filter. Qed.

Lemma candidate_appended (buf : list TelegramMsg) (a : Append) (c : TelegramMsg) :
  c ∈ candidates a → TelegramMsg.id c ∉ ids buf → c ∈ appended buf a.
Proof. intros Hc Hid. rewrite appended_filter. by apply list_elem_of_filter. Qed.






(** The push id of one and the same payload changes with the clock. *)
Example push_id_depends_on_clock :
  Feed.push_id m_anon 1700 "0.5" = "1700-0.5" ∧
  Feed.push_id m_anon 1701 "0.5" = "1701-0.5".
Proof. vm_compute. done. Qed.


(** ** The two variants of the poll tick *)

Lemma newMsgs_empty_buffer (fetched : list Raw.t) :
  Feed.newMsgs [] fetched = Feed.poll_msg <$> fetched.
Proof.
  rewrite newMsgs_filter. apply filter_all, Forall_forall.
  intros c _. apply not_elem_of_nil.
Qed.

Lemma content_mapped (fetched : list Raw.t) :
  TelegramMsg.content <$> Page.mapped fetched =
  TelegramMsg.content <$> (Feed.poll_msg <$> fetched).
Proof.
  unfold Page.mapped. rewrite fmap_imap, <- list_fmap_compose.
  rewrite <- imap_const. by apply imap_ext.
Qed.

(** C10, as the code has it. The [page.tsx] poll tick discards the prior
    buffer: whatever it held, the result is the last 200 of the fetched
    list under index-prefixed ids. It carries the same texts, senders and
    timestamps, in the same order, as the diff-and-append poll tick yields
    from an empty buffer; the ids differ, and so do the results from a
    buffer that is not empty. *)
Theorem page_poll_rebuilds (prev : list TelegramMsg) (fetched : list Raw.t) :
  apply_upd prev (Page.poll_update fetched prev) =
    Js.slice_last 200 (Page.mapped fetched) ∧
  TelegramMsg.content <$> apply_upd prev (Page.poll_update fetched prev) =
    TelegramMsg.content <$> apply_upd [] (Feed.poll_update fetched []).
Proof.
  split; [done|]. simpl. unfold Feed.poll_update.
  rewrite newMsgs_empty_buffer. case_decide as Hlen; simpl.
  - rewrite length_fmap in Hlen. by destruct fetched.
  - rewrite trim_slice. unfold Js.slice_last.
    rewrite !fmap_drop, content_mapped.
    unfold Page.mapped. by rewrite length_imap, !length_fmap.
Qed.

(** The two poll ticks differ already on an empty fetch into a buffer
    that holds a message. *)
Lemma page_poll_differs : ¬ same_poll_result.
Proof.
  intros H. specialize (H [Feed.poll_msg m7] []).
  vm_compute in H. discriminate.
Qed.

Example page_poll_ids_differ :
  ids (apply_upd [] (Page.poll_update [m7] [])) = ["0-10:00-ali-hello world, long text"] ∧
  ids (apply_upd [] (Feed.poll_update [m7] [])) = ["7"].
Proof. vm_compute. done. Qed.

(** ** The transport: one timer, fallback, stop *)

Lemma start_inv (s : Effect.State) :
  timer_inv s → timer_inv (Effect.startTelegramPolling s).
Proof.
  unfold timer_inv, Effect.startTelegramPolling.
  destruct (Effect.pollTimer s) as [t|] eqn:Ht; simpl; intros Hinv.
  - by rewrite Ht.
  - rewrite Hinv. apply (right_id_L ∅ (∪)).
Qed.

Lemma stop_inv (s : Effect.State) :
  timer_inv s → timer_inv (Effect.stopTelegramPolling s).
Proof.
  unfold timer_inv, Effect.stopTelegramPolling. simpl.
  destruct (Effect.pollTimer s) as [t|]; intros ->; [|done].
  apply difference_diag_L.
Qed.

Lemma setTelegramMsgs_timer (upd : list TelegramMsg → UpdResult) (s : Effect.State) :
  Effect.pollTimer (Effect.setTelegramMsgs upd s) = Effect.pollTimer s ∧
  Effect.intervals (Effect.setTelegramMsgs upd s) = Effect.intervals s ∧
  Effect.conn (Effect.setTelegramMsgs upd s) = Effect.conn s.
Proof.
  unfold Effect.setTelegramMsgs.
  destruct (Effect.mounted s); [|done]. by destruct (upd _).
Qed.

Lemma setTelegramMsgs_inv (upd : list TelegramMsg → UpdResult) (s : Effect.State) :
  timer_inv s → timer_inv (Effect.setTelegramMsgs upd s).
Proof.
  unfold timer_inv.
  destruct (setTelegramMsgs_timer upd s) as (-> & -> & _). done.
Qed.

Lemma step_inv (s : Effect.State) (e : Effect.Event) :
  timer_inv s → timer_inv (Effect.step s e).
Proof.
  intros Hinv. destruct e; simpl; repeat case_match; try done.
  - apply stop_inv. exact Hinv.
  - apply start_inv. exact Hinv.
  - apply start_inv. exact Hinv.
  - apply setTelegramMsgs_inv. exact Hinv.
  - apply setTelegramMsgs_inv. exact Hinv.
  - apply stop_inv. exact Hinv.
  - apply stop_inv. exact Hinv.
Qed.

Lemma run_snoc (evs : list Effect.Event) (e : Effect.Event) :
  Effect.run (evs ++ [e]) = Effect.step (Effect.run evs) e.
Proof. unfold Effect.run. by rewrite foldl_snoc. Qed.

Lemma run_app (pre post : list Effect.Event) :
  Effect.run (pre ++ post) = foldl Effect.step (Effect.run pre) post.
Proof. unfold Effect.run. by rewrite foldl_app. Qed.

Lemma run_inv (evs : list Effect.Event) : timer_inv (Effect.run evs).
Proof.
  induction evs as [|e evs IH] using rev_ind.
  - done.
  - rewrite run_snoc. by apply step_inv.
Qed.

(** C8. Starting the polling is idempotent: in a state whose [pollTimer]
    holds a handle, [startTelegramPolling] changes nothing; and in every
    run of the effect at most one interval is alive. *)
Theorem start_polling_idempotent :
  (∀ s : Effect.State,
     is_Some (Effect.pollTimer s) → Effect.startTelegramPolling s = s) ∧
  (∀ evs : list Effect.Event,
     (size (Effect.intervals (Effect.run evs)) ≤ 1)%nat).
Proof.
  split.
  - intros s [t Ht]. unfold Effect.startTelegramPolling. by rewrite Ht.
  - intros evs. rewrite (run_inv evs).
    destruct (Effect.pollTimer _).
    + rewrite size_singleton. lia.
    + rewrite size_empty. lia.
Qed.

Lemma start_polling_idempotent_witness :
  let s := Effect.run [Effect.EvSignalRErr] in
  Effect.pollTimer s = Some 1%positive ∧ Effect.startTelegramPolling s = s.
Proof.
  intros s. split; [reflexivity|].
  apply (proj1 start_polling_idempotent s). vm_compute. eauto.
Defined.

Lemma cleanup_intervals (s : Effect.State) :
  timer_inv s → Effect.intervals (Effect.step s Effect.EvCleanup) = ∅.
Proof.
  intros Hinv. pose proof (step_inv s Effect.EvCleanup Hinv) as Hstop.
  unfold timer_inv in Hstop. by rewrite Hstop.
Qed.

Lemma tick_without_interval (s : Effect.State) (t : positive) :
  Effect.intervals s = ∅ → Effect.step s (Effect.EvTick t) = s.
Proof.
  intros Hnone. simpl. rewrite decide_False; [done|].
  rewrite Hnone. apply not_elem_of_empty.
Qed.

Lemma start_conn (s : Effect.State) :
  Effect.conn (Effect.startTelegramPolling s) = Effect.conn s.
Proof. unfold Effect.startTelegramPolling. by destruct (Effect.pollTimer s). Qed.

Lemma start_polls (s : Effect.State) :
  timer_inv s → Effect.polling (Effect.startTelegramPolling s).
Proof.
  unfold timer_inv, Effect.polling, Effect.startTelegramPolling.
  destruct (Effect.pollTimer s) as [t|] eqn:Ht; simpl; intros Hinv.
  - exists t. rewrite Ht, Hinv. split; [done|]. by apply elem_of_singleton.
  - exists (Effect.nextInterval s). split; [done|].
    apply elem_of_union_l. by apply elem_of_singleton.
Qed.

Lemma setTelegramMsgs_polling (upd : list TelegramMsg → UpdResult) (s : Effect.State) :
  Effect.polling s → Effect.polling (Effect.setTelegramMsgs upd s).
Proof.
  unfold Effect.polling.
  destruct (setTelegramMsgs_timer upd s) as (-> & -> & _). done.
Qed.

(** Once the connection attempt is over, only the cleanup stops the
    polling: ticks, fetch results and failures, push events and further
    close notifications leave the interval alive. *)
Lemma step_keeps_polling (s : Effect.State) (e : Effect.Event) :
  e ≠ Effect.EvCleanup → Effect.conn s ≠ Effect.Connecting → Effect.polling s →
  Effect.polling (Effect.step s e) ∧ Effect.conn (Effect.step s e) ≠ Effect.Connecting.
Proof.
  intros He Hc Hp. destruct e; simpl; try done.
  - by rewrite decide_False.
  - case_decide; [|done]. split; [exact Hp|done].
  - by rewrite decide_False.
  - case_decide; [|done]. split; [|by rewrite start_conn].
    destruct Hp as (t & Ht & Hin). unfold Effect.startTelegramPolling. simpl.
    rewrite Ht. by exists t.
  - case_decide; [|done]. split; [exact Hp|exact Hc].
  - destruct (Effect.inflight s) as [|n]; [done|]. split.
    + apply setTelegramMsgs_polling. exact Hp.
    + by destruct (setTelegramMsgs_timer (Feed.poll_update (default [] data))
                     (Effect.set_inflight n s)) as (_ & _ & ->).
  - destruct (Effect.inflight s) as [|n]; [done|]. split; [exact Hp|exact Hc].
  - destruct (Effect.listening s); [|done]. split.
    + by apply setTelegramMsgs_polling.
    + by destruct (setTelegramMsgs_timer
                     (Feed.push_update (Feed.push_msg p now rnd)) s) as (_ & _ & ->).
Qed.

Lemma steps_keep_polling (post : list Effect.Event) (s : Effect.State) :
  Effect.EvCleanup ∉ post → Effect.conn s ≠ Effect.Connecting → Effect.polling s →
  Effect.polling (foldl Effect.step s post).
Proof.
  revert s. induction post as [|e post IH]; intros s Hpost Hc Hp; [done|].
  apply not_elem_of_cons in Hpost as [He Hpost]. simpl.
  destruct (step_keeps_polling s e) as [Hp' Hc']; auto.
Qed.

Lemma push_lost_polls (s : Effect.State) (e : Effect.Event) :
  timer_inv s → push_lost s e →
  Effect.polling (Effect.step s e) ∧ Effect.conn (Effect.step s e) ≠ Effect.Connecting.
Proof.
  intros Hinv [[-> Hc]|[-> Hc]]; simpl.
  - rewrite decide_True by done. split; [|done].
    apply (start_polls (Effect.log _ s)). exact Hinv.
  - rewrite decide_True by done. split.
    + apply (start_polls (Effect.log _ s)). exact Hinv.
    + rewrite start_conn. simpl. destruct Hc as [-> | ->]; done.
Qed.

(** C5. In every run, when the connection attempt fails, and when an
    established connection reports its closure, polling is on as soon as
    that event has been handled, and it stays on through whatever follows,
    fetch failures included, until the cleanup runs; the cleanup clears
    the interval, so that no tick fires any more. *)
Theorem push_loss_starts_polling (pre post : list Effect.Event) (e : Effect.Event) :
  push_lost (Effect.run pre) e →
  Effect.EvCleanup ∉ post →
  Effect.polling (Effect.run (pre ++ [e])) ∧
  Effect.polling (Effect.run (pre ++ e :: post)) ∧
  Effect.pollTimer (Effect.run (pre ++ e :: post ++ [Effect.EvCleanup])) = None ∧
  Effect.intervals (Effect.run (pre ++ e :: post ++ [Effect.EvCleanup])) = ∅ ∧
  (∀ t, Effect.step (Effect.run (pre ++ e :: post ++ [Effect.EvCleanup])) (Effect.EvTick t) =
        Effect.run (pre ++ e :: post ++ [Effect.EvCleanup])).
Proof.
  intros Hlost Hpost.
  destruct (push_lost_polls (Effect.run pre) e (run_inv pre) Hlost) as [Hp Hc].
  assert (Effect.polling (Effect.run (pre ++ e :: post))) as Hpost'.
  { rewrite run_app. simpl. by apply steps_keep_polling. }
  split; [by rewrite run_snoc|]. split; [done|].
  rewrite (app_comm_cons post), (app_assoc pre), run_snoc.
  pose proof (cleanup_intervals _ (run_inv (pre ++ e :: post))) as Hnone.
  split; [done|]. split; [done|].
  intros t. by apply tick_without_interval.
Qed.

Lemma push_loss_starts_polling_witness :
  Effect.polling
    (Effect.run ([] ++ Effect.EvSignalRErr ::
                   [Effect.EvTick 1; Effect.EvFetchErr; Effect.EvTick 1])) ∧
  Effect.polling
    (Effect.run ([Effect.EvSignalROk; Effect.EvPush m7 1700 "0.5"] ++
                 Effect.EvClose :: [Effect.EvInvokeSettled; Effect.EvTick 1])).
Proof.
  split.
  - apply (push_loss_starts_polling [] _ Effect.EvSignalRErr).
    + left. split; reflexivity.
    + apply (bool_decide_unpack _). vm_compute. reflexivity.
  - apply (push_loss_starts_polling [Effect.EvSignalROk; Effect.EvPush m7 1700 "0.5"]
             _ Effect.EvClose).
    + right. split; [reflexivity|]. left. reflexivity.
    + apply (bool_decide_unpack _). vm_compute. reflexivity.
Defined.

(** ** Stop *)

Lemma step_unmounted (s : Effect.State) (e : Effect.Event) :
  Effect.mounted s = false →
  Effect.telegramMsgs (Effect.step s e) = Effect.telegramMsgs s ∧
  Effect.renders (Effect.step s e) = Effect.renders s ∧
  Effect.mounted (Effect.step s e) = false.
Proof.
  assert (∀ s', Effect.telegramMsgs (Effect.startTelegramPolling s') =
                  Effect.telegramMsgs s' ∧
                Effect.renders (Effect.startTelegramPolling s') = Effect.renders s' ∧
                Effect.mounted (Effect.startTelegramPolling s') = Effect.mounted s')
    as Hstart.
  { intros s'. unfold Effect.startTelegramPolling. by destruct (Effect.pollTimer s'). }
  intros Hm.
  destruct e as [| | | |t|data| |p now rnd|]; simpl; repeat case_decide; simpl;
    try done.
  - by destruct (Hstart (Effect.log "SignalR failed, enabling polling..." s))
      as (-> & -> & ->).
  - by destruct (Hstart (Effect.log "SignalR closed, start polling" s))
      as (-> & -> & ->).
  - destruct (Effect.inflight s) as [|n]; [done|].
    unfold Effect.setTelegramMsgs. simpl. by rewrite Hm.
  - by destruct (Effect.inflight s).
  - destruct (Effect.listening s); [|done].
    unfold Effect.setTelegramMsgs. by rewrite Hm.
Qed.




(** The fetch of a tick that fired before the cleanup resolves after it:
    its continuation runs, and the buffer stays empty. *)
Example late_fetch_is_dropped :
  let s := Effect.run [Effect.EvSignalRErr; Effect.EvTick 1; Effect.EvCleanup;
                       Effect.EvFetchOk (Some [m7])] in
  Effect.inflight s = 0%nat ∧ Effect.telegramMsgs s = [].
Proof. done. Qed.

(** The cleanup does not keep the polling from starting afterwards: a
    connection attempt that fails after it starts an interval that nothing
    clears; what its fetches bring is dropped like any late update. *)
Example polling_started_after_stop :
  Effect.pollTimer (Effect.run [Effect.EvCleanup; Effect.EvSignalRErr]) = Some 1%positive.
Proof. reflexivity. Qed.

(** ** View clicks *)

Lemma flashCount_click (s : Views.State) (ad : Ad.t) :
  Views.flashCount (Views.click ad s) (Ad.id ad) = S (Views.flashCount s (Ad.id ad)).
Proof.
  unfold Views.flashCount at 1. simpl. rewrite lookup_insert_eq. simpl. lia.
Qed.

Lemma flashCount_click_other (s : Views.State) (ad : Ad.t) (k : Z) :
  k ≠ Ad.id ad → Views.flashCount (Views.click ad s) k = Views.flashCount s k.
Proof.
  intros Hk. unfold Views.flashCount. simpl. by rewrite lookup_insert_ne.
Qed.

Lemma viewCounts_settle (s : Views.State) (ad : Ad.t) (data : option (option Z)) :
  Views.viewCounts (Views.settle ad (Views.PostOk data) s) (Ad.id ad) =
  replicate (length (Views.viewCounts s (Ad.id ad))) (Views.newCount ad data).
Proof.
  unfold Views.viewCounts. simpl.
  induction (Views.ads s) as [|x l IH]; [done|].
  rewrite fmap_cons. cbn beta.
  destruct (decide (Ad.id x = Ad.id ad)) as [Hx|Hx].
  - rewrite !filter_cons_True by done.
    rewrite !fmap_cons, IH. done.
  - by rewrite !filter_cons_False by done.
Qed.

Lemma viewCounts_settle_other (s : Views.State) (ad : Ad.t)
    (data : option (option Z)) (k : Z) :
  k ≠ Ad.id ad →
  Views.viewCounts (Views.settle ad (Views.PostOk data) s) k = Views.viewCounts s k.
Proof.
  intros Hk. unfold Views.viewCounts. simpl.
  induction (Views.ads s) as [|x l IH]; [done|].
  rewrite fmap_cons. cbn beta.
  destruct (decide (Ad.id x = Ad.id ad)) as [Hx|Hx].
  - rewrite !filter_cons_False by (simpl; congruence). done.
  - rewrite !filter_cons. case_decide; by rewrite ?fmap_cons, IH.
Qed.

(** C3, as the code has it. A click raises the flash counter of the
    entity at once and leaves every view count as it is. When the POST
    resolves, whatever the page state is by then, the view count of the
    entity is set to the count the server sent, be it lower or higher than
    the count before, or to the click-time count plus one when the response
    carries none; the counts of other entities stay. *)
Theorem view_click_reconciles (s : Views.State) (ad : Ad.t) :
  (Views.ads (Views.click ad s) = Views.ads s ∧
   Views.flashCount (Views.click ad s) (Ad.id ad) = S (Views.flashCount s (Ad.id ad))) ∧
  (∀ (s' : Views.State) (n : Z),
     Views.viewCounts (Views.settle ad (Views.PostOk (Some (Some n))) s') (Ad.id ad) =
     replicate (length (Views.viewCounts s' (Ad.id ad))) n) ∧
  (∀ (s' : Views.State) (data : option (option Z)),
     mjoin data = None →
     Views.viewCounts (Views.settle ad (Views.PostOk data) s') (Ad.id ad) =
     replicate (length (Views.viewCounts s' (Ad.id ad))) (Ad.viewCount ad + 1)) ∧
  (∀ (s' : Views.State) (data : option (option Z)) (k : Z),
     k ≠ Ad.id ad →
     Views.viewCounts (Views.settle ad (Views.PostOk data) s') k =
     Views.viewCounts s' k).
Proof.
  split; [split; [done|apply flashCount_click]|].
  split; [|split].
  - intros s' n. by rewrite viewCounts_settle.
  - intros s' data Hd. rewrite viewCounts_settle. unfold Views.newCount.
    by rewrite Hd.
  - intros s' data k Hk. by apply viewCounts_settle_other.
Qed.

Lemma view_click_reconciles_witness :
  Views.viewCounts (Views.settle pride (Views.PostOk None) (Views.click pride page0)) 3 = [6] ∧
  Views.viewCounts (Views.settle pride (Views.PostOk (Some (Some 2))) (Views.click pride page0)) 3 = [2] ∧
  Views.viewCounts (Views.settle pride (Views.PostOk None) (Views.click pride page0)) 4 = [].
Proof.
  destruct (view_click_reconciles page0 pride) as (_ & Hn & Hnone & Hother).
  split; [|split].
  - apply (Hnone (Views.click pride page0) None). reflexivity.
  - apply (Hn (Views.click pride page0) 2).
  - apply (Hother (Views.click pride page0) None 4). vm_compute. discriminate.
Defined.

(** The click does not touch the view count: it is 5 before and 5 after,
    not 6. *)
Lemma click_leaves_view_count : ¬ optimistic_view_count.
Proof.
  intros H. specialize (H page0 pride).
  assert (pride ∈ Views.ads page0) as Hin by by left.
  specialize (H Hin). vm_compute in H. discriminate.
Qed.

(** C7. When the POST fails the error is swallowed: the handler goes on
    to its navigation, and the ads and the flash counters the page shows
    are those of the state right after the click, the raised flash counter
    included. *)
Theorem view_failure_keeps_optimistic_state (s : Views.State) (ad : Ad.t) :
  Views.settle ad Views.PostErr (Views.click ad s) = Views.click ad s ∧
  Views.handleViewClick ad Views.PostErr s = Views.navigate ad (Views.click ad s) ∧
  Views.ads (Views.handleViewClick ad Views.PostErr s) = Views.ads (Views.click ad s) ∧
  Views.flashCounts (Views.handleViewClick ad Views.PostErr s) =
    Views.flashCounts (Views.click ad s) ∧
  Views.dispatched (Views.handleViewClick ad Views.PostErr s) = Views.dispatched s ∧
  Views.flashCount (Views.handleViewClick ad Views.PostErr s) (Ad.id ad) =
    S (Views.flashCount s (Ad.id ad)).
Proof.
  repeat split. apply (flashCount_click s ad).
Qed.


(** * Further properties of the feed *)

(** ** Appends that repeat themselves *)

Lemma duplicates_same (buf : list TelegramMsg) (a : Append) :
  Forall (λ c, TelegramMsg.id c ∈ ids buf) (candidates a) →
  updater a buf = Same.
Proof.
  intros Hdup. rewrite updater_appended, appended_filter.
  rewrite filter_none; [by rewrite decide_True|].
  eapply Forall_impl; [exact Hdup|]. simpl. auto.
Qed.

Lemma append_fits (buf : list TelegramMsg) (a : Append) :
  (length buf + length (appended buf a) ≤ capacity)%nat →
  append buf a = buf ++ appended buf a.
Proof.
  intros Hfit. rewrite append_appended by lia.
  apply slice_last_short. rewrite length_app. lia.
Qed.

(** X1. A poll tick that fetches again the list of the tick before it
    changes nothing, as long as the buffer with what that tick appended
    stays within the capacity. *)
Theorem repoll_is_noop (buf : list TelegramMsg) (fetched : list Raw.t) :
  (length buf + length (Feed.newMsgs buf fetched) ≤ 200)%nat →
  Feed.poll_update fetched (append buf (Poll fetched)) = Same ∧
  append (append buf (Poll fetched)) (Poll fetched) = append buf (Poll fetched).
Proof.
  intros Hfit.
  assert (Feed.poll_update fetched (append buf (Poll fetched)) = Same) as Hsame.
  { apply (duplicates_same _ (Poll fetched)).
    rewrite (append_fits buf (Poll fetched)) by exact Hfit.
    apply Forall_forall. intros c Hc. unfold ids. rewrite fmap_app.
    apply elem_of_app.
    destruct (decide (TelegramMsg.id c ∈ ids buf)) as [Hin|Hout]; [by left|].
    right. apply list_elem_of_fmap_2. by apply candidate_appended. }
  split; [done|]. unfold append at 1. simpl. by rewrite Hsame.
Qed.

Lemma repoll_is_noop_witness :
  Feed.poll_update [m7; m_anon] (append [Feed.poll_msg m8] (Poll [m7; m_anon])) = Same.
Proof.
  apply (repoll_is_noop [Feed.poll_msg m8] [m7; m_anon]). vm_compute. lia.
Defined.

Lemma single_candidate_present (buf : list TelegramMsg) (a : Append) (c : TelegramMsg) :
  candidates a = [c] → TelegramMsg.id c ∈ ids (append buf a).
Proof.
  intros Hc.
  destruct (decide (TelegramMsg.id c ∈ ids buf)) as [Hin|Hout].
  - unfold append. rewrite duplicates_same; [done|].
    rewrite Hc. by apply Forall_singleton.
  - apply list_elem_of_fmap_2, appended_kept.
    + etrans; [apply appended_length|]. rewrite Hc. simpl. unfold capacity. lia.
    + apply candidate_appended; [|done]. rewrite Hc. by left.
Qed.

(** X2. A message with an explicit non-zero id is stored once whichever
    transport brings it first: pushed after it was polled, or polled after
    it was pushed, it is dropped as a duplicate. *)
Theorem cross_transport_dedup (buf : list TelegramMsg) (m : Raw.t) (i now : Z)
    (rnd : string) :
  Raw.id m = Some i → i ≠ 0 →
  Feed.push_update (Feed.push_msg m now rnd) (append buf (Poll [m])) = Same ∧
  Feed.poll_update [m] (append buf (Push m now rnd)) = Same.
Proof.
  intros Hid Hi.
  assert (Feed.poll_id m = Feed.push_id m now rnd) as Heq.
  { unfold Feed.poll_id, Feed.push_id. rewrite Hid. simpl.
    by rewrite decide_False. }
  split.
  - apply (duplicates_same _ (Push m now rnd)). apply Forall_singleton. simpl.
    rewrite <- Heq. by apply (single_candidate_present buf (Poll [m]) (Feed.poll_msg m)).
  - apply (duplicates_same _ (Poll [m])). apply Forall_singleton. simpl.
    rewrite Heq.
    by apply (single_candidate_present buf (Push m now rnd) (Feed.push_msg m now rnd)).
Qed.

Lemma cross_transport_dedup_witness :
  Feed.push_update (Feed.push_msg m7 1700 "0.5") (append [] (Poll [m7])) = Same ∧
  Feed.poll_update [m7] (append [] (Push m7 1700 "0.5")) = Same.
Proof. apply (cross_transport_dedup [] m7 7 1700 "0.5"); [reflexivity|lia]. Defined.

(** Without an id the two transports disagree on the id, and the message
    is stored twice. *)
Example anonymous_message_twice :
  length (run_appends [Poll [m_anon]; Push m_anon 1700 "0.5"]) = 2%nat.
Proof. reflexivity. Qed.

(** ** The buffer in the runs of the effect *)

Lemma step_delivers (s : Effect.State) (e : Effect.Event) :
  Effect.telegramMsgs (Effect.step s e) =
  match delivers s e with
  | Some a => append (Effect.telegramMsgs s) a
  | None => Effect.telegramMsgs s
  end.
Proof.
  unfold delivers. destruct (Effect.mounted s) eqn:Hm.
  2: { by destruct (step_unmounted s e Hm) as [-> _]. }
  assert (∀ s', Effect.telegramMsgs (Effect.startTelegramPolling s') =
                Effect.telegramMsgs s') as Hstart.
  { intros s'. unfold Effect.startTelegramPolling. by destruct (Effect.pollTimer s'). }
  destruct e; simpl; repeat case_decide; try done.
  - simpl. by rewrite Hstart.
  - by rewrite Hstart.
  - destruct (Effect.inflight s); [done|].
    unfold Effect.setTelegramMsgs, append. simpl. rewrite Hm.
    by destruct (Feed.poll_update _ _).
  - by destruct (Effect.inflight s).
  - destruct (Effect.listening s); [|done].
    unfold Effect.setTelegramMsgs, append. simpl. rewrite Hm.
    by destruct (Feed.push_update _ _).
Qed.

Lemma delivers_no_repeat (s : Effect.State) (e : Effect.Event) (a : Append) :
  fetch_no_repeat e → delivers s e = Some a → no_repeat a.
Proof.
  unfold delivers. destruct (Effect.mounted s); [|done].
  destruct e; simpl; try done.
  - destruct (Effect.inflight s); [done|]. by intros ? [= <-].
  - destruct (Effect.listening s); [|done]. intros _ [= <-].
    unfold no_repeat. simpl. apply NoDup_singleton.
Qed.

(** X3. In every run of the effect, whatever the interleaving of ticks,
    fetch results, push events, closures and the cleanup, the buffer holds
    at most 200 messages; and when no fetch result carries an id twice, no
    id occurs twice in the buffer. *)
Theorem effect_buffer_bounded_unique (evs : list Effect.Event) :
  (length (Effect.telegramMsgs (Effect.run evs)) ≤ 200)%nat ∧
  (Forall fetch_no_repeat evs →
     NoDup (ids (Effect.telegramMsgs (Effect.run evs)))).
Proof.
  induction evs as [|e evs [IHlen IHnd]] using rev_ind.
  - split; [simpl; lia|]. intros _. constructor.
  - rewrite run_snoc, step_delivers.
    destruct (delivers (Effect.run evs) e) as [a|] eqn:Hd.
    + split; [by apply append_length|].
      intros [Hevs He]%Forall_app. rewrite Forall_singleton in He.
      apply append_NoDup; [done| |by apply IHnd].
      by apply (delivers_no_repeat (Effect.run evs) e).
    + split; [done|]. intros [Hevs _]%Forall_app. by apply IHnd.
Qed.

Lemma effect_buffer_bounded_unique_witness :
  NoDup (ids (Effect.telegramMsgs
    (Effect.run [Effect.EvSignalRErr; Effect.EvTick 1; Effect.EvFetchOk (Some [m7; m8]);
                 Effect.EvTick 1; Effect.EvFetchOk (Some [m8; m_anon])]))).
Proof.
  apply effect_buffer_bounded_unique.
  apply (bool_decide_unpack _). vm_compute. reflexivity.
Defined.

Lemma step_idle (s : Effect.State) (e : Effect.Event) :
  Effect.conn s = Effect.Connecting → idle s →
  Effect.conn (Effect.step s e) = Effect.Connecting → idle (Effect.step s e).
Proof.
  intros Hc (Hb & Hr & Ht & Hi & Hf & Hl).
  destruct e as [| | | |t|data| |p now rnd|]; simpl.
  - rewrite decide_True by done. simpl. discriminate.
  - rewrite decide_False by (by rewrite Hc). done.
  - rewrite decide_True by done. simpl. discriminate.
  - rewrite decide_False by (rewrite Hc; intros [?|?]; done). done.
  - rewrite decide_False by (rewrite Hi; apply not_elem_of_empty). done.
  - rewrite Hf. done.
  - rewrite Hf. done.
  - rewrite Hl. done.
  - rewrite decide_False by (by rewrite Hc). intros _.
    unfold idle. simpl. by rewrite Ht.
Qed.

Lemma step_leaves_connecting (s : Effect.State) (e : Effect.Event) :
  Effect.conn (Effect.step s e) = Effect.Connecting →
  Effect.conn s = Effect.Connecting.
Proof.
  destruct e as [| | | |t|data| |p now rnd|]; simpl; repeat case_decide;
    simpl; try done.
  - by rewrite start_conn.
  - destruct (Effect.inflight s) as [|n]; [done|].
    by destruct (setTelegramMsgs_timer (Feed.poll_update (default [] data))
                   (Effect.set_inflight n s)) as (_ & _ & ->).
  - by destruct (Effect.inflight s).
  - destruct (Effect.listening s); [|done].
    by destruct (setTelegramMsgs_timer
                   (Feed.push_update (Feed.push_msg p now rnd)) s) as (_ & _ & ->).
Qed.

(** X4. Until the connection attempt settles the feed does not move: in
    every run that has seen neither its success nor its failure the buffer
    is empty, nothing was rendered, no interval or fetch is pending and no
    listener is attached; so the [stopTelegramPolling] of the success
    branch never finds a timer to clear. *)
Theorem idle_while_connecting (evs : list Effect.Event) :
  Effect.conn (Effect.run evs) = Effect.Connecting → idle (Effect.run evs).
Proof.
  induction evs as [|e evs IH] using rev_ind; [done|].
  rewrite run_snoc. intros Hc'.
  destruct (decide (Effect.conn (Effect.run evs) = Effect.Connecting)) as [Hc|Hc].
  - by apply step_idle; [|apply IH|].
  - by apply step_leaves_connecting in Hc'.
Qed.

Lemma idle_while_connecting_witness :
  idle (Effect.run [Effect.EvTick 1; Effect.EvPush m7 1700 "0.5"; Effect.EvCleanup;
                    Effect.EvFetchOk (Some [m7])]).
Proof. apply idle_while_connecting. reflexivity. Defined.

(** ** The push listener *)

Lemma step_keeps_listening (s : Effect.State) (e : Effect.Event) :
  Effect.listening s = true → Effect.listening (Effect.step s e) = false →
  e = Effect.EvCleanup ∧ Effect.conn s = Effect.Ready.
Proof.
  assert (∀ s', Effect.listening (Effect.startTelegramPolling s') =
                Effect.listening s') as Hstart.
  { intros s'. unfold Effect.startTelegramPolling. by destruct (Effect.pollTimer s'). }
  assert (∀ upd s', Effect.listening (Effect.setTelegramMsgs upd s') =
                    Effect.listening s') as Hset.
  { intros upd s'. unfold Effect.setTelegramMsgs.
    destruct (Effect.mounted s'); [|done]. by destruct (upd _). }
  intros Hl.
  destruct e as [| | | |t|data| |p now rnd|]; simpl; repeat case_decide; simpl;
    rewrite ?Hstart, ?Hset; simpl; try congruence.
  - destruct (Effect.inflight s); rewrite ?Hset; simpl; congruence.
  - destruct (Effect.inflight s); simpl; congruence.
  - rewrite Hl, Hset. congruence.
  - done.
Qed.

Lemma steps_keep_listening (post : list Effect.Event) (s : Effect.State) :
  Effect.EvCleanup ∉ post → Effect.listening s = true →
  Effect.listening (foldl Effect.step s post) = true.
Proof.
  revert s. induction post as [|e post IH]; intros s Hpost Hl; [done|].
  apply not_elem_of_cons in Hpost as [He Hpost]. simpl. apply IH; [done|].
  destruct (Effect.listening (Effect.step s e)) eqn:Hl'; [done|].
  by destruct (step_keeps_listening s e Hl Hl').
Qed.

Lemma invoking_listens (evs : list Effect.Event) :
  Effect.conn (Effect.run evs) = Effect.Invoking →
  Effect.listening (Effect.run evs) = true.
Proof.
  induction evs as [|e evs IH] using rev_ind; [done|].
  rewrite run_snoc. set (s := Effect.run evs) in *. intros Hc.
  destruct (decide (Effect.conn s = Effect.Invoking)) as [Hi|Hi].
  - destruct (Effect.listening (Effect.step s e)) eqn:Hl; [done|].
    destruct (step_keeps_listening s e (IH Hi) Hl) as [_ Hr]. congruence.
  - clear IH. revert Hc.
    destruct e as [| | | |t|data| |p now rnd|]; simpl; repeat case_decide;
      simpl; try done.
    + by rewrite start_conn.
    + destruct (Effect.inflight s) as [|n]; [done|].
      by destruct (setTelegramMsgs_timer (Feed.poll_update (default [] data))
                     (Effect.set_inflight n s)) as (_ & _ & ->).
    + by destruct (Effect.inflight s).
    + destruct (Effect.listening s); [|done].
      by destruct (setTelegramMsgs_timer
                     (Feed.push_update (Feed.push_msg p now rnd)) s) as (_ & _ & ->).
Qed.

(** X5. The push listener, once attached, is detached by nothing but a
    cleanup that runs after [unsub] has been set. A cleanup that runs while
    [GetOnlineCount] is still awaited finds [unsub] unset: the listener
    stays attached through whatever follows. *)
Theorem listener_outlives_early_cleanup :
  (∀ (s : Effect.State) (e : Effect.Event),
     Effect.listening s = true → Effect.listening (Effect.step s e) = false →
     e = Effect.EvCleanup ∧ Effect.conn s = Effect.Ready) ∧
  (∀ (pre post : list Effect.Event),
     Effect.conn (Effect.run pre) = Effect.Invoking →
     Effect.EvCleanup ∉ post →
     Effect.listening (Effect.run (pre ++ Effect.EvCleanup :: post)) = true).
Proof.
  split; [apply step_keeps_listening|].
  intros pre post Hc Hpost.
  rewrite run_app. simpl. apply steps_keep_listening; [done|].
  rewrite decide_False by (by rewrite Hc). simpl.
  by apply invoking_listens.
Qed.

Lemma listener_outlives_early_cleanup_witness :
  Effect.listening
    (Effect.run ([Effect.EvSignalROk] ++ Effect.EvCleanup ::
                   [Effect.EvInvokeSettled; Effect.EvPush m7 1700 "0.5"])) = true.
Proof.
  apply (proj2 listener_outlives_early_cleanup [Effect.EvSignalROk]).
  - reflexivity.
  - apply (bool_decide_unpack _). vm_compute. reflexivity.
Defined.

(** ** The [page.tsx] variant *)

Lemma append_String (c : ascii) (s t : string) :
  String c s +:+ t = String c (s +:+ t).
Proof. reflexivity. Qed.

Lemma append_empty (t : string) : "" +:+ t = t.
Proof. reflexivity. Qed.

Lemma dashless_prefix_inj (a b r r' : string) :
  Js.dashes a = 0%nat → Js.dashes b = 0%nat →
  a +:+ String "-" r = b +:+ String "-" r' → a = b.
Proof.
  revert b. induction a as [|c a IH]; intros [|c' b] Ha Hb Heq; [done| | |].
  - rewrite append_empty, append_String in Heq. injection Heq as <- _.
    simpl in Hb. lia.
  - rewrite append_empty, append_String in Heq. injection Heq as -> _.
    simpl in Ha. lia.
  - rewrite !append_String in Heq. injection Heq as -> Heq.
    f_equal. apply IH; [| |done].
    + simpl in Ha. lia.
    + simpl in Hb. lia.
Qed.

Lemma dashes_index (i : nat) : Js.dashes (Js.String_num (Z.of_nat i)) = 0%nat.
Proof.
  unfold Js.String_num, pretty, pretty_Z. destruct (Z.of_nat i) eqn:Hi; [done| |lia].
  apply dashes_pretty_N.
Qed.

Lemma indexed_id_index (i j : nat) (m m' : Raw.t) :
  Page.indexed_id i m = Page.indexed_id j m' → i = j.
Proof.
  unfold Page.indexed_id. intros Heq.
  change (?a +:+ "-" +:+ ?r) with (a +:+ String "-" r) in Heq.
  apply dashless_prefix_inj in Heq; [|apply dashes_index..].
  apply (inj pretty) in Heq. lia.
Qed.

Lemma mapped_ids_distinct (fetched : list Raw.t) : NoDup (ids (Page.mapped fetched)).
Proof.
  unfold ids, Page.mapped. rewrite fmap_imap. apply NoDup_alt.
  intros i j k. rewrite !list_lookup_imap.
  destruct (fetched !! i) as [m|]; [|done].
  destruct (fetched !! j) as [m'|]; [|done]. simpl.
  intros [= <-] [= Heq]. symmetry in Heq. by apply indexed_id_index in Heq.
Qed.

(** X6. In the [page.tsx] variant the buffer a poll tick leaves never
    holds an id twice, even when the fetched list repeats a message: the
    list index in front of the id tells the entries apart. It holds the
    fetched messages up to 200 of them. *)
Theorem page_poll_ids_distinct (prev : list TelegramMsg) (fetched : list Raw.t) :
  NoDup (ids (apply_upd prev (Page.poll_update fetched prev))) ∧
  length (apply_upd prev (Page.poll_update fetched prev)) =
    (length fetched `min` 200)%nat.
Proof.
  simpl. split.
  - unfold ids, Js.slice_last. rewrite fmap_drop.
    eapply sublist_NoDup; [apply mapped_ids_distinct|apply sublist_drop].
  - rewrite slice_last_length. unfold Page.mapped. by rewrite length_imap.
Qed.

Lemma page_push_slice (m : TelegramMsg) (prev : list TelegramMsg) :
  apply_upd prev (Page.push_update m prev) = Js.slice_last capacity (prev ++ [m]).
Proof.
  simpl. case_decide; [done|].
  symmetry. apply slice_last_short. lia.
Qed.

(** X7. In the [page.tsx] variant the pushed messages pass through the
    buffer as through a sliding window: after any number of push events
    the buffer is the last 200 entries of what it held before followed by
    all the pushed messages, none dropped as a duplicate. *)
Theorem page_push_window (prev msgs : list TelegramMsg) :
  (length prev ≤ 200)%nat →
  page_pushes prev msgs = Js.slice_last 200 (prev ++ msgs).
Proof.
  intros Hlen. unfold page_pushes.
  induction msgs as [|m msgs IH] using rev_ind.
  - simpl. rewrite app_nil_r. symmetry. by apply slice_last_short.
  - rewrite foldl_snoc, IH, page_push_slice.
    rewrite (slice_last_app capacity). by rewrite app_assoc.
Qed.

Lemma page_push_window_witness :
  page_pushes [] [Page.push_msg m7 1700 "0.5"; Page.push_msg m7 1700 "0.5"] =
  [Page.push_msg m7 1700 "0.5"; Page.push_msg m7 1700 "0.5"].
Proof.
  apply (page_push_window [] [Page.push_msg m7 1700 "0.5"; Page.push_msg m7 1700 "0.5"]).
  simpl. lia.
Defined.

(** ** The history tab *)

(** X8. The history loader keeps every fetched message, in order, under
    the id the live poll tick would give it, without the cap of the live
    buffer: up to 200 messages it shows what a poll tick builds from an
    empty buffer, and a failed request shows nothing. *)
Theorem history_like_first_poll (data : option (list Raw.t)) :
  length (SitePanel.historyLoaded (Some data)) = length (default [] data) ∧
  ids (SitePanel.historyLoaded (Some data)) = Feed.poll_id <$> default [] data ∧
  ((length (default [] data) ≤ 200)%nat →
     SitePanel.historyLoaded (Some data) =
     apply_upd [] (Feed.poll_update (default [] data) [])) ∧
  SitePanel.historyLoaded None = [].
Proof.
  simpl. set (fetched := default [] data).
  assert (SitePanel.mapped fetched = Feed.poll_msg <$> fetched) as Hmap by done.
  split; [by rewrite Hmap, length_fmap|]. split.
  { rewrite Hmap. unfold ids. rewrite <- list_fmap_compose. done. }
  split; [|done]. intros Hlen. unfold Feed.poll_update.
  rewrite newMsgs_empty_buffer. case_decide as Hn; simpl.
  - rewrite length_fmap in Hn. rewrite Hmap. by destruct fetched.
  - rewrite trim_slice, slice_last_short; [done|]. by rewrite length_fmap.
Qed.

Lemma history_like_first_poll_witness :
  SitePanel.historyLoaded (Some (Some [m7; m7; m_anon])) =
  apply_upd [] (Feed.poll_update [m7; m7; m_anon] []).
Proof.
  apply (history_like_first_poll (Some [m7; m7; m_anon])). simpl. lia.
Defined.

(** * Further properties of the page *)

(** ** View counts *)

Lemma settle_ads (s : Views.State) (ad : Ad.t) (data : option (option Z)) :
  Views.ads (Views.settle ad (Views.PostOk data) s) =
  (λ x, if decide (Ad.id x = Ad.id ad)
        then Ad.with_viewCount (Views.newCount ad data) x else x) <$> Views.ads s.
Proof. done. Qed.

(** X9. The reconciliation touches nothing but view counts: whatever the
    POST brings, the page lists the same ads afterwards, in the same
    order, with the same ids, owners and titles, and the flash counters
    and the route are as before. *)
Theorem settle_changes_counts_only (s : Views.State) (ad : Ad.t) (r : Views.PostResult) :
  Ad.id <$> Views.ads (Views.settle ad r s) = Ad.id <$> Views.ads s ∧
  Ad.userId <$> Views.ads (Views.settle ad r s) = Ad.userId <$> Views.ads s ∧
  Ad.title <$> Views.ads (Views.settle ad r s) = Ad.title <$> Views.ads s ∧
  Views.flashCounts (Views.settle ad r s) = Views.flashCounts s ∧
  Views.route (Views.settle ad r s) = Views.route s.
Proof.
  destruct r as [|data]; [done|]. rewrite settle_ads.
  repeat split; rewrite <- list_fmap_compose; apply list_fmap_ext;
    intros i x _; simpl; by case_decide.
Qed.

Lemma flashCount_step (s : Views.State) (e : ViewStep) (k : Z) :
  Views.flashCount (view_step s e) k =
  (Views.flashCount s k + if is_click_on k e then 1 else 0)%nat.
Proof.
  destruct e as [ad|ad r|ad]; simpl.
  - case_bool_decide as Hk.
    + subst k. rewrite flashCount_click. lia.
    + rewrite flashCount_click_other by done. lia.
  - destruct r; simpl; unfold Views.flashCount; simpl; lia.
  - unfold Views.flashCount. simpl. lia.
Qed.

(** X10. The flash counter of an entity counts the clicks on it: after any
    interleaving of clicks, settled POSTs and navigations, for any
    entities, it has grown by exactly the number of clicks on that entity;
    it never decreases and no response or failure resets it. *)
Theorem flash_counter_counts_clicks (s : Views.State) (tr : list ViewStep) (k : Z) :
  Views.flashCount (view_run s tr) k = (Views.flashCount s k + clicks_on k tr)%nat.
Proof.
  unfold view_run, clicks_on. revert s.
  induction tr as [|e tr IH]; intros s; simpl; [lia|].
  rewrite IH, flashCount_step. destruct (is_click_on k e); simpl; lia.
Qed.

Lemma settled_count (s : Views.State) (ad : Ad.t) (data : option (option Z)) (x : Ad.t) :
  x ∈ Views.ads (Views.settle ad (Views.PostOk data) s) → Ad.id x = Ad.id ad →
  Ad.viewCount x = Views.newCount ad data.
Proof.
  rewrite settle_ads. intros (y & -> & _)%list_elem_of_fmap Hid.
  destruct (decide (Ad.id y = Ad.id ad)) as [Hy|Hy]; done.
Qed.

(** X11. When the POST resolves, exactly one [carads_view_updated] event
    is sent, and the count it announces is the count that every listed ad
    of that id shows from then on; a failed POST sends none. *)
Theorem view_event_matches_state (s : Views.State) (ad : Ad.t) (data : option (option Z)) :
  let s' := Views.settle ad (Views.PostOk data) s in
  Views.dispatched s' = Views.dispatched s ++ [(Ad.id ad, Views.newCount ad data)] ∧
  (∀ x, x ∈ Views.ads s' → Ad.id x = Ad.id ad →
        Ad.viewCount x = Views.newCount ad data) ∧
  Views.dispatched (Views.settle ad Views.PostErr s) = Views.dispatched s.
Proof.
  intros s'. split; [done|]. split; [|done].
  intros x Hx Hid. by apply (settled_count s ad data).
Qed.

Lemma view_event_matches_state_witness :
  Forall (λ x, Ad.viewCount x = 9)
    (Views.ads (Views.settle pride (Views.PostOk (Some (Some 9)))
                  (Views.click pride page0))).
Proof.
  apply Forall_forall. intros x Hx.
  apply (proj1 (proj2 (view_event_matches_state (Views.click pride page0) pride
                         (Some (Some 9)))) x Hx).
  apply list_elem_of_singleton in Hx. by subst x.
Defined.

(** X12. Reconciliations compose without compounding: applying the same
    response for the same click twice leaves the ads as after the first,
    so two clicks on one row whose responses carry no count raise it by
    one, not by two; and responses for entities with different ids may
    arrive in either order. *)
Theorem settle_idempotent_commutes (s : Views.State) (a b : Ad.t)
    (ra rb : Views.PostResult) :
  Views.ads (Views.settle a ra (Views.settle a ra s)) =
    Views.ads (Views.settle a ra s) ∧
  (Ad.id a ≠ Ad.id b →
     Views.ads (Views.settle a ra (Views.settle b rb s)) =
     Views.ads (Views.settle b rb (Views.settle a ra s))).
Proof.
  split.
  - destruct ra as [|data]; [done|]. rewrite !settle_ads.
    rewrite <- list_fmap_compose. apply list_fmap_ext. intros i x _. simpl.
    destruct (decide (Ad.id x = Ad.id a)) as [Hx|Hx]; simpl.
    + by rewrite decide_True.
    + by rewrite decide_False.
  - intros Hab. destruct ra as [|da], rb as [|db]; try done.
    rewrite !settle_ads, <- !list_fmap_compose.
    apply list_fmap_ext. intros i x _. simpl.
    destruct (decide (Ad.id x = Ad.id a)) as [Hxa|Hxa];
      destruct (decide (Ad.id x = Ad.id b)) as [Hxb|Hxb]; simpl;
      rewrite ?decide_True by done; rewrite ?decide_False by done;
      try done; congruence.
Qed.

Lemma settle_idempotent_commutes_witness :
  Views.ads (Views.settle pride (Views.PostOk (Some (Some 9)))
               (Views.settle (Ad.mk 4 11 "Samand" 2) (Views.PostOk None) page0)) =
  Views.ads (Views.settle (Ad.mk 4 11 "Samand" 2) (Views.PostOk None)
               (Views.settle pride (Views.PostOk (Some (Some 9))) page0)).
Proof.
  apply (settle_idempotent_commutes page0 pride (Ad.mk 4 11 "Samand" 2)).
  simpl. lia.
Defined.

(** ** Selection *)

(** X13. A click on a row toggles it and nothing else stays selected:
    afterwards a row is selected exactly when it has the id of the clicked
    ad and no row of that id was selected before. *)
Theorem select_toggles (a : Ad.t) (prev : option Ad.t) (k : Z) :
  Selection.selected (Selection.onSelect a prev) k =
  bool_decide (k = Ad.id a) && negb (Selection.selected prev (Ad.id a)).
Proof.
  destruct prev as [s|]; simpl.
  - case_decide as Hs; simpl.
    + rewrite (bool_decide_eq_true_2 (Ad.id s = Ad.id a)) by done. simpl.
      by rewrite andb_false_r.
    + rewrite (bool_decide_eq_false_2 (Ad.id s = Ad.id a)) by done. simpl.
      rewrite andb_true_r. apply bool_decide_ext. split; congruence.
  - rewrite andb_true_r. apply bool_decide_ext. split; congruence.
Qed.

Lemma find_by_id (ads : list Ad.t) (k : Z) :
  match List.find (λ a, bool_decide (Ad.id a = k)) ads with
  | Some u => u ∈ ads ∧ Ad.id u = k
  | None => ∀ x, x ∈ ads → Ad.id x ≠ k
  end.
Proof.
  induction ads as [|x ads IH]; simpl.
  - intros x Hx. by apply elem_of_nil in Hx.
  - case_bool_decide as Hx.
    + split; [by left|done].
    + destruct (List.find _ ads) as [u|].
      * destruct IH as [Hu Hk]. split; [by right|done].
      * intros y [->|Hy]%elem_of_cons; [done|by apply IH].
Qed.

(** X14. The selection follows the list: the effect on [ads] never moves
    the selection to another id, keeps a selected ad that is no longer
    listed, and, once a POST for the selected ad has resolved while it is
    listed, puts the reconciled view count into the selection. *)
Theorem selection_follows_ads (ads : list Ad.t) (sel : option Ad.t) :
  (∀ k, Selection.selected (Selection.syncSelected ads sel) k =
        Selection.selected sel k) ∧
  (∀ s0, sel = Some s0 → (∀ x, x ∈ ads → Ad.id x ≠ Ad.id s0) →
         Selection.syncSelected ads sel = sel) ∧
  (∀ (s : Views.State) (ad : Ad.t) (data : option (option Z)),
     ads = Views.ads (Views.settle ad (Views.PostOk data) s) →
     Selection.selected sel (Ad.id ad) = true →
     (∃ x, x ∈ Views.ads s ∧ Ad.id x = Ad.id ad) →
     ∃ u, Selection.syncSelected ads sel = Some u ∧ Ad.id u = Ad.id ad ∧
          Ad.viewCount u = Views.newCount ad data).
Proof.
  split; [|split].
  - intros k. destruct sel as [s0|]; [|done]. simpl.
    pose proof (find_by_id ads (Ad.id s0)) as Hf.
    destruct (List.find _ ads) as [u|]; [|done].
    destruct Hf as [_ Hu]. simpl. by rewrite Hu.
  - intros s0 -> Hnone. simpl.
    pose proof (find_by_id ads (Ad.id s0)) as Hf.
    destruct (List.find _ ads) as [u|]; [|done].
    destruct Hf as [Hu Hk]. by destruct (Hnone u Hu).
  - intros s ad data -> Hsel (x & Hx & Hid).
    destruct sel as [s0|]; [|done]. simpl in Hsel.
    apply bool_decide_eq_true in Hsel. simpl.
    pose proof (find_by_id (Views.ads (Views.settle ad (Views.PostOk data) s))
                  (Ad.id s0)) as Hf.
    destruct (List.find _ _) as [u|].
    + destruct Hf as [Hu Hk]. exists u. split; [done|]. split; [congruence|].
      apply (settled_count s ad data); [done|congruence].
    + exfalso. apply (Hf (Ad.with_viewCount (Views.newCount ad data) x)); [|simpl; congruence].
      rewrite settle_ads. apply list_elem_of_fmap. exists x.
      by rewrite decide_True.
Qed.

Lemma selection_follows_ads_witness :
  ∃ u, Selection.syncSelected
         (Views.ads (Views.settle pride (Views.PostOk (Some (Some 9))) page0))
         (Some pride) = Some u ∧
       Ad.id u = 3 ∧ Ad.viewCount u = 9.
Proof.
  apply (proj2 (proj2 (selection_follows_ads
           (Views.ads (Views.settle pride (Views.PostOk (Some (Some 9))) page0))
           (Some pride))) page0 pride (Some (Some 9))).
  - reflexivity.
  - reflexivity.
  - exists pride. split; [by left|reflexivity].
Defined.

(** ** The flash of a row *)

(** X15. Every click on an ad makes its row flash blue: if the row has
    seen no flash count beyond the current one, the effect that follows
    the click turns the flash on, in blue, and records the new count; a
    click on an ad with another id leaves a row that is up to date as it
    is. *)
Theorem click_flashes_row (s : Views.State) (ad : Ad.t) (st : AdRow.State) :
  (AdRow.prevFlash st ≤ Views.flashCount s (Ad.id ad))%nat →
  let st' := AdRow.flashEffect (Views.flashCount (Views.click ad s) (Ad.id ad)) st in
  (AdRow.isFlashing st' = true ∧ AdRow.flashColor st' = AdRow.Blue ∧
   AdRow.prevFlash st' = Views.flashCount (Views.click ad s) (Ad.id ad) ∧
   AdRow.timeouts st' = S (AdRow.timeouts st)) ∧
  (∀ b : Ad.t,
     Ad.id b ≠ Ad.id ad →
     AdRow.prevFlash st = Views.flashCount s (Ad.id ad) →
     AdRow.flashEffect (Views.flashCount (Views.click b s) (Ad.id ad)) st = st).
Proof.
  intros Hprev st'. split.
  - subst st'. unfold AdRow.flashEffect. rewrite flashCount_click.
    rewrite decide_True by lia. done.
  - intros b Hb Heq. unfold AdRow.flashEffect.
    rewrite flashCount_click_other by done.
    rewrite decide_False; [done|]. intros [_ Hne]. by apply Hne.
Qed.

Lemma click_flashes_row_witness :
  AdRow.isFlashing
    (AdRow.flashEffect (Views.flashCount (Views.click pride page0) 3) AdRow.init) = true.
Proof.
  apply (click_flashes_row page0 pride AdRow.init). simpl. lia.
Defined.

(** A timeout left over from an earlier click ends the flash of a later
    one. *)
Example early_timeout_ends_flash :
  let st := AdRow.timeoutFires (AdRow.flashEffect 2 (AdRow.flashEffect 1 AdRow.init)) in
  AdRow.isFlashing st = false ∧ AdRow.timeouts st = 1%nat.
Proof. done. Qed.

(** ** User records *)

Lemma settled_elem (u v : Z) (reqs : list Z) : v ∈ Users.settled u reqs → v ∈ reqs.
Proof.
  induction reqs as [|w reqs IH]; simpl; [done|].
  case_decide; [by right|].
  intros [->|Hv]%elem_of_cons; [by left|right; by apply IH].
Qed.

Lemma settled_NoDup (u : Z) (reqs : list Z) : NoDup reqs → NoDup (Users.settled u reqs).
Proof.
  induction 1 as [|w reqs Hw Hnd IH]; simpl; [constructor|].
  case_decide; [done|]. constructor; [|done].
  intros Hin. by apply settled_elem in Hin.
Qed.

Lemma settled_gone (u : Z) (reqs : list Z) : NoDup reqs → u ∉ Users.settled u reqs.
Proof.
  induction 1 as [|w reqs Hw Hnd IH]; simpl; [apply not_elem_of_nil|].
  case_decide; [by subst|].
  intros [->|Hin]%elem_of_cons; done.
Qed.

Lemma fetchUser_inv (u : Z) (s : Users.State) : Users.inv s → Users.inv (Users.fetchUser u s).
Proof.
  intros (Hnd & Hpf & Huf & Hpu). unfold Users.fetchUser.
  case_decide as Hin; [done|]. unfold Users.inv. simpl.
  split; [|split; [|split]].
  - apply NoDup_app. split; [done|]. split; [|apply NoDup_singleton].
    intros v Hv ->%list_elem_of_singleton. by apply Hin, Hpf.
  - intros v [Hv| ->%list_elem_of_singleton]%elem_of_app.
    + apply elem_of_union_r. by apply Hpf.
    + apply elem_of_union_l. by apply elem_of_singleton.
  - intros v Hv. apply elem_of_union_r. by apply Huf.
  - intros v [Hv| ->%list_elem_of_singleton]%elem_of_app; [by apply Hpu|].
    intros Hd. by apply Hin, Huf.
Qed.

Lemma settle_inv (u : Z) (r : Users.Response) (s : Users.State) :
  Users.inv s → Users.inv (Users.settle u r s).
Proof.
  intros (Hnd & Hpf & Huf & Hpu). unfold Users.settle.
  case_decide as Hin; [|done].
  pose proof (settled_gone u _ Hnd) as Hgone.
  destruct r as [data|]; unfold Users.inv; simpl.
  - split; [by apply settled_NoDup|]. split; [|split].
    + intros v Hv%settled_elem. by apply Hpf.
    + intros v. rewrite dom_insert, elem_of_union, elem_of_singleton.
      intros [->|Hv]; [by apply Hpf|by apply Huf].
    + intros v Hv. rewrite dom_insert, elem_of_union, elem_of_singleton.
      intros [->|Hd]; [done|]. apply settled_elem in Hv. by apply (Hpu v).
  - split; [by apply settled_NoDup|]. split; [|split].
    + intros v Hv. apply elem_of_difference. split.
      * apply Hpf. by apply settled_elem in Hv.
      * intros Hvu%elem_of_singleton. by subst v.
    + intros v Hv. apply elem_of_difference. split; [by apply Huf|].
      intros Hvu%elem_of_singleton. subst v. by apply (Hpu u).
    + intros v Hv%settled_elem. by apply Hpu.
Qed.

Lemma fetchUsers_inv (us : list Z) (s : Users.State) :
  Users.inv s → Users.inv (foldl (λ st u, Users.fetchUser u st) s us).
Proof.
  revert s. induction us as [|u us IH]; intros s Hs; [done|].
  simpl. by apply IH, fetchUser_inv.
Qed.

Lemma users_run_inv (evs : list Users.Event) : Users.inv (Users.run evs).
Proof.
  unfold Users.run. induction evs as [|e evs IH] using rev_ind.
  - unfold Users.inv. simpl. split; [constructor|].
    split; [|split]; intros u Hu; try by apply elem_of_nil in Hu.
    rewrite dom_empty in Hu. by apply not_elem_of_empty in Hu.
  - rewrite foldl_snoc. destruct e as [u|u r|data]; simpl.
    + by apply fetchUser_inv.
    + by apply settle_inv.
    + by apply fetchUsers_inv.
Qed.

(** X16. In every run of the page, each poster is requested at most once
    at a time and never again once loaded: the requests in flight are
    pairwise distinct and marked as fetched, every loaded user is marked
    as fetched and has no request in flight, and [fetchUser] on a user
    that is loaded or being requested changes nothing. *)
Theorem users_requested_once (evs : list Users.Event) :
  Users.inv (Users.run evs) ∧
  (∀ u, u ∈ dom (Users.users (Users.run evs)) ∨ u ∈ Users.pending (Users.run evs) →
        Users.fetchUser u (Users.run evs) = Users.run evs).
Proof.
  pose proof (users_run_inv evs) as Hinv. split; [done|].
  destruct Hinv as (_ & Hpf & Huf & _).
  intros u Hu. unfold Users.fetchUser. rewrite decide_True; [done|].
  destruct Hu; auto.
Qed.

Lemma users_requested_once_witness :
  Users.fetchUser 5
    (Users.run [Users.EvFetchUser 5; Users.EvSettle 5 (Users.Resolved (UserInfo.mk 5 "ali" "Ali" "R"))]) =
  Users.run [Users.EvFetchUser 5; Users.EvSettle 5 (Users.Resolved (UserInfo.mk 5 "ali" "Ali" "R"))].
Proof.
  apply (proj2 (users_requested_once _)). left.
  apply (bool_decide_unpack _). vm_compute. reflexivity.
Defined.

(** X17. How a request settles. A response stores the record under the
    requested id, keeps the id marked, and so blocks every later request
    for it; a failure unmarks the id, and the next [fetchUser] for it
    sends a new request. *)
Theorem user_request_settles (evs : list Users.Event) (u : Z) :
  u ∈ Users.pending (Users.run evs) →
  (∀ data,
     ((Users.users (Users.settle u (Users.Resolved data) (Users.run evs)) !! u)
        = Some data) ∧
     (u ∉ Users.pending (Users.settle u (Users.Resolved data) (Users.run evs))) ∧
     (Users.fetchUser u (Users.settle u (Users.Resolved data) (Users.run evs)) =
        Users.settle u (Users.Resolved data) (Users.run evs))) ∧
  (Users.users (Users.settle u Users.Rejected (Users.run evs)) =
     Users.users (Users.run evs)) ∧
  (u ∉ Users.fetchedUserIds (Users.settle u Users.Rejected (Users.run evs))) ∧
  (u ∉ Users.pending (Users.settle u Users.Rejected (Users.run evs))) ∧
  (Users.pending (Users.fetchUser u (Users.settle u Users.Rejected (Users.run evs))) =
     Users.pending (Users.settle u Users.Rejected (Users.run evs)) ++ [u]).
Proof.
  intros Hin. destruct (users_run_inv evs) as (Hnd & Hpf & Huf & Hpu).
  pose proof (settled_gone u _ Hnd) as Hgone.
  split.
  - intros data. unfold Users.settle. rewrite decide_True by done. simpl.
    split; [|split; [done|]].
    + rewrite lookup_insert_eq. by destruct data.
    + unfold Users.fetchUser. simpl. rewrite decide_True; [done|]. by apply Hpf.
  - unfold Users.settle. rewrite decide_True by done. simpl.
    split; [done|]. split; [|split; [done|]].
    + intros [_ Hn]%elem_of_difference. apply Hn. by apply elem_of_singleton.
    + unfold Users.fetchUser. simpl. rewrite decide_False; [done|].
      intros [_ Hn]%elem_of_difference. apply Hn. by apply elem_of_singleton.
Qed.

Lemma user_request_settles_witness :
  Users.pending
    (Users.fetchUser 5 (Users.settle 5 Users.Rejected (Users.run [Users.EvFetchUser 5]))) =
  Users.pending (Users.settle 5 Users.Rejected (Users.run [Users.EvFetchUser 5])) ++ [5].
Proof.
  apply (user_request_settles [Users.EvFetchUser 5] 5).
  apply (bool_decide_unpack _). vm_compute. reflexivity.
Defined.

Lemma see_NoDup (seen ks : list Z) :
  NoDup seen →
  NoDup (foldl (λ seen k, if decide (k ∈ seen) then seen else seen ++ [k]) seen ks).
Proof.
  revert seen. induction ks as [|k ks IH]; intros seen Hnd; simpl; [done|].
  apply IH. case_decide as Hk; [done|].
  apply NoDup_app. split; [done|]. split; [|apply NoDup_singleton].
  intros x Hx ->%list_elem_of_singleton. done.
Qed.

Lemma see_elem (seen ks : list Z) (x : Z) :
  x ∈ foldl (λ seen k, if decide (k ∈ seen) then seen else seen ++ [k]) seen ks ↔
  x ∈ seen ∨ x ∈ ks.
Proof.
  revert seen. induction ks as [|k ks IH]; intros seen; simpl.
  - split; [auto|]. intros [?|Hx]; [done|]. by apply elem_of_nil in Hx.
  - rewrite IH, elem_of_cons. case_decide as Hk.
    + split; [tauto|]. intros [?|[->|?]]; auto.
    + rewrite elem_of_app, list_elem_of_singleton. tauto.
Qed.

Lemma fetchUsers_pending (us : list Z) (s : Users.State) :
  NoDup us →
  Users.pending (foldl (λ st u, Users.fetchUser u st) s us) =
  Users.pending s ++ filter (λ u, u ∉ Users.fetchedUserIds s) us.
Proof.
  intros Hnd. revert s.
  induction Hnd as [|u us Hu _ IH]; intros s; simpl.
  - by rewrite app_nil_r.
  - rewrite IH, filter_cons. unfold Users.fetchUser. case_decide as Hin.
    + by rewrite decide_False by auto.
    + rewrite decide_True by done. simpl. rewrite <- app_assoc. simpl.
      do 2 f_equal. apply filter_agree. intros v Hv.
      rewrite elem_of_union, elem_of_singleton.
      split; [tauto|]. intros Hn [->|?]; done.
Qed.

(** X18. When the ads arrive, each distinct poster that is not yet marked
    as fetched is requested exactly once, in the order of first appearance
    in the list, however many ads the poster has; on a fresh page these
    are all the posters of the list. *)
Theorem ads_load_requests_posters_once (data : option (list Ad.t)) (s : Users.State) :
  Users.pending (Users.adsLoaded data s) =
    Users.pending s ++
    filter (λ u, u ∉ Users.fetchedUserIds s)
      (Users.set_order (Ad.userId <$> default [] data)) ∧
  NoDup (Users.set_order (Ad.userId <$> default [] data)) ∧
  (∀ u, u ∈ Users.set_order (Ad.userId <$> default [] data) ↔
        ∃ ad, ad ∈ default [] data ∧ Ad.userId ad = u) ∧
  Users.pending (Users.adsLoaded data Users.init) =
    Users.set_order (Ad.userId <$> default [] data).
Proof.
  assert (NoDup (Users.set_order (Ad.userId <$> default [] data))) as Hnd
    by (apply see_NoDup; constructor).
  split; [by apply fetchUsers_pending|]. split; [done|]. split.
  - intros u. unfold Users.set_order. rewrite see_elem, list_elem_of_fmap.
    split.
    + intros [Hu|(ad & -> & Had)]; [by apply elem_of_nil in Hu|eauto].
    + intros (ad & Had & <-). right. eauto.
  - unfold Users.adsLoaded. rewrite fetchUsers_pending by done. simpl.
    apply filter_all, Forall_forall. intros u _. apply not_elem_of_empty.
Qed.

(** ** Labels *)

Lemma decimal_char_fixed (c : ascii) :
  bool_decide ((48 ≤ N_of_ascii c ≤ 57)%N) || bool_decide (c = "-"%char) = true →
  Label.lower c = c ∧ Label.is_space c = false.
Proof. destruct c as [[] [] [] [] [] [] [] []]; vm_compute; intros; done. Qed.

Lemma lower_idem (c : ascii) : Label.lower (Label.lower c) = Label.lower c.
Proof. destruct c as [[] [] [] [] [] [] [] []]; vm_compute; done. Qed.

Lemma space_lower (c : ascii) : Label.is_space (Label.lower c) = Label.is_space c.
Proof. destruct c as [[] [] [] [] [] [] [] []]; vm_compute; done. Qed.

Lemma key_decimal (s : string) :
  Label.decimal s = true → Label.strip_spaces (Label.toLowerCase s) = s.
Proof.
  induction s as [|c s IH]; simpl; [done|].
  intros [Hc Hs]%andb_true_iff.
  destruct (decimal_char_fixed c Hc) as [-> ->]. by rewrite IH.
Qed.

Lemma decimal_pretty_N_char (d : N) :
  bool_decide ((48 ≤ N_of_ascii (pretty_N_char d) ≤ 57)%N) = true.
Proof. unfold pretty_N_char. repeat case_match; done. Qed.

Lemma decimal_pretty_N_go (x : N) (s : string) :
  Label.decimal s = true → Label.decimal (pretty_N_go x s) = true.
Proof.
  revert s. induction (N.lt_wf_0 x) as [x _ IH]; intros s Hs.
  destruct (decide (x = 0)%N) as [->|Hx]; [by rewrite pretty_N_go_0|].
  rewrite pretty_N_go_step by lia.
  apply IH; [apply N.div_lt; lia|]. simpl.
  by rewrite decimal_pretty_N_char, Hs.
Qed.

Lemma decimal_String_num (n : Z) : Label.decimal (Js.String_num n) = true.
Proof.
  assert (∀ p : positive, Label.decimal (pretty p) = true) as Hpos.
  { intros p. unfold pretty, pretty_positive, pretty, pretty_N.
    case_decide; [done|]. by apply decimal_pretty_N_go. }
  unfold Js.String_num, pretty, pretty_Z. destruct n as [|p|p]; [done|apply Hpos|].
  change ("-" +:+ pretty p) with (String "-" (pretty p)). simpl. apply Hpos.
Qed.

Lemma key_of_number (n : Z) : Label.key_of (Label.Num n) = Js.String_num n.
Proof. apply key_decimal, decimal_String_num. Qed.

(** No name of [Object.prototype] and no key of the name tables is
    written in digits. *)
Lemma lettered_keys :
  Forall (λ k, Label.decimal k = false)
    (Label.prototype_names ++
     ["usedsale"; "coopsale"; "buyrequest"; "zerosale"; "none"; "automatic"; "manual"]).
Proof. apply (bool_decide_unpack _). vm_compute. reflexivity. Qed.

Lemma number_not_lettered (n : Z) (k : string) :
  k ∈ Label.prototype_names ++
      ["usedsale"; "coopsale"; "buyrequest"; "zerosale"; "none"; "automatic"; "manual"] →
  Js.String_num n ≠ k.
Proof.
  intros Hk Heq. pose proof lettered_keys as Hall.
  rewrite Forall_forall in Hall. specialize (Hall k Hk).
  rewrite <- Heq, decimal_String_num in Hall. done.
Qed.

Lemma get_number_miss (table : gmap string string) (n : Z) :
  table !! Js.String_num n = None → Label.get table (Js.String_num n) = None.
Proof.
  intros Hnone. unfold Label.get. rewrite Hnone.
  rewrite decide_False; [done|]. intros Hin.
  apply (number_not_lettered n (Js.String_num n)); [|done].
  apply elem_of_app. by left.
Qed.

Lemma number_key (n m : Z) (k : string) :
  Js.String_num m = k → Js.String_num n = k → n = m.
Proof. intros <- Heq. by apply (inj pretty) in Heq. Qed.

Lemma lettered_miss (n : Z) (pairs : list (string * string)) :
  Forall (λ k, Label.decimal k = false) pairs.*1 →
  (list_to_map pairs : gmap string string) !! Js.String_num n = None.
Proof.
  intros Hall. apply not_elem_of_list_to_map_1. intros Hin.
  rewrite Forall_forall in Hall. specialize (Hall _ Hin).
  by rewrite decimal_String_num in Hall.
Qed.

(** X19. The label of a numeric ad type: the codes 1 to 4 get the four
    type labels, and every other integer, zero and negative ones included,
    gets the label for an unknown type. *)
Theorem typeLabel_of_number (n : Z) :
  Label.typeLabel (Label.Num n) =
  Label.Text
    (if decide (n = 1) then "فروش کارکرده"
     else if decide (n = 2) then "فروش همکاری"
     else if decide (n = 3) then "درخواست خرید"
     else if decide (n = 4) then "فروش صفر"
     else "نامشخص").
Proof.
  unfold Label.typeLabel. rewrite key_of_number.
  repeat case_decide; subst; try (vm_compute; reflexivity).
  rewrite get_number_miss.
  - rewrite get_number_miss; [done|].
    apply lettered_miss, (bool_decide_unpack _). vm_compute. reflexivity.
  - unfold Label.TYPE_NUM. apply not_elem_of_list_to_map_1. simpl.
    intros Hin. repeat (apply elem_of_cons in Hin as [Hin|Hin]);
      [| | | |by apply elem_of_nil in Hin].
    + by apply (number_key n 1) in Hin.
    + by apply (number_key n 2) in Hin.
    + by apply (number_key n 3) in Hin.
    + by apply (number_key n 4) in Hin.
Qed.

(** X20. The label of a numeric gearbox code: 1 is automatic, 2 is
    manual, and every other integer, the 0 of the table included, gets the
    dash. *)
Theorem gearboxLabel_of_number (n : Z) :
  Label.gearboxLabel (Label.Num n) =
  Label.Text
    (if decide (n = 1) then "اتومات"
     else if decide (n = 2) then "دنده‌ای"
     else "—").
Proof.
  unfold Label.gearboxLabel. rewrite key_of_number.
  repeat case_decide; subst; try (vm_compute; reflexivity).
  destruct (decide (n = 0)) as [->|Hn]; [vm_compute; reflexivity|].
  rewrite get_number_miss.
  - rewrite get_number_miss; [done|].
    apply lettered_miss, (bool_decide_unpack _). vm_compute. reflexivity.
  - unfold Label.GEAR_NUM. apply not_elem_of_list_to_map_1. simpl.
    intros Hin. repeat (apply elem_of_cons in Hin as [Hin|Hin]);
      [| | |by apply elem_of_nil in Hin].
    + by apply (number_key n 0) in Hin.
    + by apply (number_key n 1) in Hin.
    + by apply (number_key n 2) in Hin.
Qed.

Lemma toLowerCase_app (a b : string) :
  Label.toLowerCase (a +:+ b) = Label.toLowerCase a +:+ Label.toLowerCase b.
Proof.
  induction a as [|c a IH]; [done|].
  rewrite append_String. simpl. by rewrite IH, append_String.
Qed.

Lemma strip_spaces_app (a b : string) :
  Label.strip_spaces (a +:+ b) = Label.strip_spaces a +:+ Label.strip_spaces b.
Proof.
  induction a as [|c a IH]; [done|].
  rewrite append_String. simpl. destruct (Label.is_space c); [done|].
  by rewrite IH, append_String.
Qed.

Lemma key_of_app (a b : string) :
  Label.key_of (Label.Str (a +:+ b)) =
  Label.key_of (Label.Str a) +:+ Label.key_of (Label.Str b).
Proof. unfold Label.key_of. simpl. by rewrite toLowerCase_app, strip_spaces_app. Qed.

Lemma key_of_space (w : ascii) (s : string) :
  Label.is_space w = true →
  Label.key_of (Label.Str (String w s)) = Label.key_of (Label.Str s).
Proof. intros Hw. unfold Label.key_of. simpl. by rewrite space_lower, Hw. Qed.

Lemma key_of_same_lower (c c' : ascii) (s : string) :
  Label.lower c = Label.lower c' →
  Label.key_of (Label.Str (String c s)) = Label.key_of (Label.Str (String c' s)).
Proof. intros Hc. unfold Label.key_of. simpl. by rewrite Hc. Qed.

Lemma labels_by_key (t t' : Label.NumOrStr) :
  Label.key_of t = Label.key_of t' →
  Label.typeLabel t = Label.typeLabel t' ∧ Label.gearboxLabel t = Label.gearboxLabel t'.
Proof. intros Hk. unfold Label.typeLabel, Label.gearboxLabel. by rewrite Hk. Qed.

(** X21. The labels do not depend on spacing or letter case: a white-space
    character put anywhere into the name of a type or a gearbox, and a
    character replaced by one with the same lower-case form, leave both
    labels as they are. *)
Theorem labels_ignore_space_and_case (s1 s2 : string) (c c' : ascii) :
  (Label.is_space c = true →
     Label.typeLabel (Label.Str (s1 +:+ String c s2)) =
       Label.typeLabel (Label.Str (s1 +:+ s2)) ∧
     Label.gearboxLabel (Label.Str (s1 +:+ String c s2)) =
       Label.gearboxLabel (Label.Str (s1 +:+ s2))) ∧
  (Label.lower c = Label.lower c' →
     Label.typeLabel (Label.Str (s1 +:+ String c s2)) =
       Label.typeLabel (Label.Str (s1 +:+ String c' s2)) ∧
     Label.gearboxLabel (Label.Str (s1 +:+ String c s2)) =
       Label.gearboxLabel (Label.Str (s1 +:+ String c' s2))).
Proof.
  split; intros Hc; apply labels_by_key; rewrite !key_of_app; f_equal.
  - by apply key_of_space.
  - by apply key_of_same_lower.
Qed.

Lemma labels_ignore_space_and_case_witness :
  (Label.typeLabel (Label.Str ("used" +:+ String " " "sale")) =
     Label.typeLabel (Label.Str ("used" +:+ "sale")) ∧
   Label.gearboxLabel (Label.Str ("used" +:+ String " " "sale")) =
     Label.gearboxLabel (Label.Str ("used" +:+ "sale"))) ∧
  (Label.typeLabel (Label.Str ("auto" +:+ String "M" "atic")) =
     Label.typeLabel (Label.Str ("auto" +:+ String "m" "atic")) ∧
   Label.gearboxLabel (Label.Str ("auto" +:+ String "M" "atic")) =
     Label.gearboxLabel (Label.Str ("auto" +:+ String "m" "atic"))).
Proof.
  split.
  - apply (labels_ignore_space_and_case "used" "sale" " " " "). reflexivity.
  - apply (labels_ignore_space_and_case "auto" "atic" "M" "m"). reflexivity.
Defined.

Lemma key_lowered (t : Label.NumOrStr) :
  Label.toLowerCase (Label.key_of t) = Label.key_of t.
Proof.
  unfold Label.key_of. induction (Label.to_string t) as [|c s IH]; [done|].
  simpl. destruct (Label.is_space (Label.lower c)); [done|].
  simpl. by rewrite lower_idem, IH.
Qed.

Lemma lowered_prototype_name (k : string) :
  k ∈ Label.prototype_names → Label.toLowerCase k = k →
  k = "constructor" ∨ k = "__proto__".
Proof.
  unfold Label.prototype_names. intros Hin Hlow.
  repeat (apply elem_of_cons in Hin as [->|Hin]);
    try (vm_compute in Hlow; discriminate); auto.
  by apply elem_of_nil in Hin.
Qed.

Lemma get_inherited (table : gmap string string) (k name : string) :
  Label.get table k = Some (Label.Inherited name) →
  name = k ∧ k ∈ Label.prototype_names.
Proof.
  unfold Label.get. destruct (table !! k); [done|].
  case_decide; [|done]. by intros [= <-].
Qed.

(** X22. Both label functions answer with a text for every input but
    two: only a name that normalises to [constructor] or to [__proto__]
    reaches a property inherited from [Object.prototype] instead of the
    label for the unknown. *)
Theorem labels_are_text_but_for_two (t : Label.NumOrStr) (name : string) :
  Label.typeLabel t = Label.Inherited name ∨
  Label.gearboxLabel t = Label.Inherited name →
  name = Label.key_of t ∧ (name = "constructor" ∨ name = "__proto__").
Proof.
  assert (∀ table, Label.get table (Label.key_of t) = Some (Label.Inherited name) →
            name = Label.key_of t ∧ (name = "constructor" ∨ name = "__proto__"))
    as Hget.
  { intros table [-> Hin]%get_inherited. split; [done|].
    apply lowered_prototype_name; [done|apply key_lowered]. }
  unfold Label.typeLabel, Label.gearboxLabel, Label.orElse.
  intros [H|H].
  - destruct (Label.get Label.TYPE_NUM _) as [v|] eqn:Hn.
    + subst v. by apply (Hget Label.TYPE_NUM).
    + destruct (Label.get Label.TYPE_STR _) as [v|] eqn:Hs; [|done].
      simpl in H. subst v. by apply (Hget Label.TYPE_STR).
  - destruct (Label.get Label.GEAR_NUM _) as [v|] eqn:Hn.
    + subst v. by apply (Hget Label.GEAR_NUM).
    + destruct (Label.get Label.GEAR_STR _) as [v|] eqn:Hs; [|done].
      simpl in H. subst v. by apply (Hget Label.GEAR_STR).
Qed.

Lemma labels_are_text_but_for_two_witness :
  "constructor" = Label.key_of (Label.Str "Con Structor") ∧
  ("constructor" = "constructor" ∨ "constructor" = "__proto__").
Proof.
  apply (labels_are_text_but_for_two (Label.Str "Con Structor") "constructor").
  left. vm_compute. reflexivity.
Defined.
